(** * Quiescent-state based reclamation: [SingleWriterQuiescentStateReclamation]

    A shallow embedding of the class in [src/cpp/qsbr/qsbr.h] and of the
    second listing of the same class carried by [src/cpp/qsbr/README.txt].
    The two listings share the reader record, the registry, the garbage
    queue, [destroy_later], [create_reader] and [min_quiesced_epoch]; they
    differ in the initial value of the epoch counter and in
    [garbage_collect].

    Conventions.
    - [Epoch] is [uint64_t]: a [Z] in [0 .. 2^64-1]; the only operation that
      can leave the range is [fetch_add(1)], whose wrap-around is written
      out ([wrap64]).  The subtractions of [garbage_collect] are guarded by
      the source and cannot underflow.
    - [std::list<Reader> readers_] is a list whose head is [front()];
      a reader is identified by the address of its list node (the pointer
      held by the [ReaderHandle]).
    - [std::deque<Trash> garbage_] is a list whose head is [front()].
    - The class is used by several threads; the embedding is the sequential
      semantics of its operations, each taken as one atomic step. *)

From Stdlib Require Import ZArith List Bool Lia Sorted Permutation.
From Stdlib Require Import Ascii.
From Stdlib Require String.
Import ListNotations.
Import String.StringSyntax.
Open Scope Z_scope.

(** ** Data *)

Definition Epoch := Z.

(** [std::numeric_limits<Epoch>::max()] *)
Definition EPOCH_MAX : Epoch := 2 ^ 64 - 1.

(** Arithmetic of [uint64_t]: results are reduced modulo [2^64]. *)
Definition wrap64 (z : Z) : Epoch := z mod 2 ^ 64.

(** Addresses: of reader nodes, and of the objects handed to
    [destroy_later]. *)
Definition Ptr := nat.

(** [class Reader]: [local_] is the stored epoch; [global_] is a reference to
    the shared counter, passed explicitly to [on_quiesce]; [addr] is the
    address of the node, the identity that the handle's deleter compares
    ([&e == r]).  The [padding] member carries no behaviour. *)
Record Reader : Type := mkReader { addr : Ptr; local_ : Epoch }.

(** [struct Trash] *)
Record Trash : Type := mkTrash { epoch : Epoch; item : Ptr }.

(** The data members of the class ([readers_lock_] has no sequential
    content). *)
Record Qsbr : Type := mkQsbr {
  global_epoch_ : Epoch;
  readers_ : list Reader;
  garbage_ : list Trash
}.

(** ** [Reader] *)

(** [void on_quiesce() { local_ = global_.load(); }] *)
Definition on_quiesce (global : Epoch) (r : Reader) : Reader :=
  mkReader (addr r) global.

(** [Epoch current_epoch() { return local_.load(); }] *)
Definition current_epoch (r : Reader) : Epoch := local_ r.

(** [Reader(AtomicEpoch& e)]: the body calls [on_quiesce()]; the value
    [local_] holds before that call is never read. *)
Definition Reader_ctor (global : Epoch) (a : Ptr) : Reader :=
  on_quiesce global (mkReader a 0).

(** ** Methods shared by the two listings *)

(** [size_t pending_garbage() { return garbage_.size(); }] *)
Definition pending_garbage (s : Qsbr) : nat := length (garbage_ s).

(** [garbage_.emplace_back(Trash{global_epoch_.load(), std::move(g)})] *)
Definition destroy_later (p : Ptr) (s : Qsbr) : Qsbr :=
  mkQsbr (global_epoch_ s) (readers_ s)
         (garbage_ s ++ [mkTrash (global_epoch_ s) p]).

(** The allocator gives the new list node an address no live node has. *)
Definition fresh_addr (rs : list Reader) : Ptr :=
  S (fold_right Nat.max 0%nat (map addr rs)).

(** [create_reader]: [readers_.emplace_front(global_epoch_)], then the handle
    is the address of [readers_.front()].  Returns the handle and the new
    state. *)
Definition create_reader (s : Qsbr) : Ptr * Qsbr :=
  let a := fresh_addr (readers_ s) in
  (a, mkQsbr (global_epoch_ s)
             (Reader_ctor (global_epoch_ s) a :: readers_ s)
             (garbage_ s)).

(** The deleter of [ReaderHandle]:
    [readers_.remove_if([&](auto&& e) { return &e == r; })]. *)
Definition release_reader (h : Ptr) (s : Qsbr) : Qsbr :=
  mkQsbr (global_epoch_ s)
         (filter (fun e => negb (Nat.eqb (addr e) h)) (readers_ s))
         (garbage_ s).

(** [handle->on_quiesce()]: the node at address [h] re-reads the counter.
    A handle is only used while its node is registered; on an address that
    holds no node the embedding changes nothing. *)
Definition handle_on_quiesce (h : Ptr) (s : Qsbr) : Qsbr :=
  mkQsbr (global_epoch_ s)
         (map (fun e => if Nat.eqb (addr e) h
                        then on_quiesce (global_epoch_ s) e else e)
              (readers_ s))
         (garbage_ s).

(** Dereferencing a handle: the node at address [h], if it is registered. *)
Definition deref (h : Ptr) (s : Qsbr) : option Reader :=
  find (fun e => Nat.eqb (addr e) h) (readers_ s).

(** [handle->current_epoch()] *)
Definition handle_current_epoch (h : Ptr) (s : Qsbr) : option Epoch :=
  option_map current_epoch (deref h s).

(** [min_quiesced_epoch]:
<<
    Epoch min = std::numeric_limits<Epoch>::max();
    auto iter = readers_.begin(), end = readers_.end();
    for (++iter; iter != end; ++iter) {
      min = std::min(min, iter->current_epoch());
    }
    return min;
>>
    The iterator is advanced once before the first test, so the loop runs
    over the readers after [front()].  On an empty list [++iter] steps from
    the sentinel node of the circular list back to itself, and the loop body
    does not run: [tl [] = []]. *)
Definition min_quiesced_epoch (rs : list Reader) : Epoch :=
  fold_left (fun min e => Z.min min (current_epoch e)) (tl rs) EPOCH_MAX.

(** The loop of [garbage_collect]:
<<
    while (!garbage_.empty() && garbage_.front().epoch < gc_epoch) {
      garbage_.pop_front();
    }
>>
    [pop_front_loop] is the queue the loop leaves, [popped] the entries it
    popped (whose objects [pop_front] destroyed), oldest first. *)
Fixpoint pop_front_loop (gc_epoch : Epoch) (g : list Trash) : list Trash :=
  match g with
  | [] => []
  | t :: g' => if epoch t <? gc_epoch then pop_front_loop gc_epoch g' else g
  end.

Fixpoint popped (gc_epoch : Epoch) (g : list Trash) : list Trash :=
  match g with
  | [] => []
  | t :: g' => if epoch t <? gc_epoch then t :: popped gc_epoch g' else []
  end.

(** The minimum as the documentation words it ("once all readers are newer
    than the point at which the garbage was created"): over every registered
    reader, [EPOCH_MAX] when there is none.  It is not part of the source; it
    is what [min_quiesced_epoch] is compared with. *)
Definition documented_min_epoch (rs : list Reader) : Epoch :=
  fold_left (fun min e => Z.min min (current_epoch e)) rs EPOCH_MAX.

(** ** The listing of [src/cpp/qsbr/qsbr.h] *)

Module Header.

(** [AtomicEpoch global_epoch_{0}], empty registry, empty queue. *)
Definition init : Qsbr := mkQsbr 0 [] [].

(** [garbage_collect]:
<<
  Epoch global_epoch = global_epoch_.fetch_add(1);
  Epoch gc_epoch = min_quiesced_epoch();
  if (gc_epoch > 0 && gc_epoch < global_epoch) {
    gc_epoch = gc_epoch - 1;
    while (...) { garbage_.pop_front(); }
  }
  return (global_epoch > gc_epoch) ? global_epoch - gc_epoch : 0;
>>
    Returns the value returned and the new state. *)
Definition garbage_collect (s : Qsbr) : Z * Qsbr :=
  let global_epoch := global_epoch_ s in
  let next := wrap64 (global_epoch + 1) in
  let gc_epoch := min_quiesced_epoch (readers_ s) in
  if (0 <? gc_epoch) && (gc_epoch <? global_epoch) then
    let gc_epoch := gc_epoch - 1 in
    ((if gc_epoch <? global_epoch then global_epoch - gc_epoch else 0),
     mkQsbr next (readers_ s) (pop_front_loop gc_epoch (garbage_ s)))
  else
    ((if gc_epoch <? global_epoch then global_epoch - gc_epoch else 0),
     mkQsbr next (readers_ s) (garbage_ s)).

(** The body of [garbage_collect] from the point where [gc_epoch] has been
    computed, as a function of that value. *)
Definition garbage_collect_from (gc_epoch : Epoch) (s : Qsbr) : Z * Qsbr :=
  let global_epoch := global_epoch_ s in
  let next := wrap64 (global_epoch + 1) in
  if (0 <? gc_epoch) && (gc_epoch <? global_epoch) then
    let gc_epoch := gc_epoch - 1 in
    ((if gc_epoch <? global_epoch then global_epoch - gc_epoch else 0),
     mkQsbr next (readers_ s) (pop_front_loop gc_epoch (garbage_ s)))
  else
    ((if gc_epoch <? global_epoch then global_epoch - gc_epoch else 0),
     mkQsbr next (readers_ s) (garbage_ s)).

(** The entries whose objects the loop destroys. *)
Definition destroyed_from (gc_epoch : Epoch) (s : Qsbr) : list Trash :=
  if (0 <? gc_epoch) && (gc_epoch <? global_epoch_ s)
  then popped (gc_epoch - 1) (garbage_ s) else [].

(** The entries whose objects a call of [garbage_collect] destroys. *)
Definition destroyed_by_collect (s : Qsbr) : list Trash :=
  destroyed_from (min_quiesced_epoch (readers_ s)) s.

End Header.

(** ** The listing carried by [src/cpp/qsbr/README.txt] *)

Module Readme.

(** [AtomicEpoch global_epoch_{1}] *)
Definition init : Qsbr := mkQsbr 1 [] [].

(** [constexpr auto kMagic = 128;] *)
Definition kMagic : Z := 128.

(** [size_t generation() const { return global_epoch_.load(); }] *)
Definition generation (s : Qsbr) : Z := global_epoch_ s.

(** The condition of the [assert] in [garbage_collect]. *)
Definition assert_cond (gc_epoch global_epoch : Epoch) : bool :=
  (gc_epoch =? EPOCH_MAX) || (gc_epoch <=? global_epoch).

(** [garbage_collect]:
<<
  Epoch gc_epoch = min_quiesced_epoch();
  Epoch global_epoch = global_epoch_.fetch_add(1);
  assert(gc_epoch == max || gc_epoch <= global_epoch);
  if (gc_epoch > kMagic && gc_epoch < global_epoch) {
    gc_epoch = gc_epoch - kMagic;
    while (...) { garbage_.pop_front(); }
    return global_epoch - gc_epoch;
  }
  return 0;
>>
    [None] is a failed [assert]. *)
Definition garbage_collect_checked (s : Qsbr) : option (Z * Qsbr) :=
  let gc_epoch := min_quiesced_epoch (readers_ s) in
  let global_epoch := global_epoch_ s in
  let next := wrap64 (global_epoch + 1) in
  if assert_cond gc_epoch global_epoch then
    if (kMagic <? gc_epoch) && (gc_epoch <? global_epoch) then
      let gc_epoch := gc_epoch - kMagic in
      Some (global_epoch - gc_epoch,
            mkQsbr next (readers_ s) (pop_front_loop gc_epoch (garbage_ s)))
    else Some (0, mkQsbr next (readers_ s) (garbage_ s))
  else None.

(** The same with [assert] compiled out ([NDEBUG]). *)
Definition garbage_collect (s : Qsbr) : Z * Qsbr :=
  let gc_epoch := min_quiesced_epoch (readers_ s) in
  let global_epoch := global_epoch_ s in
  let next := wrap64 (global_epoch + 1) in
  if (kMagic <? gc_epoch) && (gc_epoch <? global_epoch) then
    let gc_epoch := gc_epoch - kMagic in
    (global_epoch - gc_epoch,
     mkQsbr next (readers_ s) (pop_front_loop gc_epoch (garbage_ s)))
  else (0, mkQsbr next (readers_ s) (garbage_ s)).

(** The body of [garbage_collect] as a function of [gc_epoch]. *)
Definition garbage_collect_from (gc_epoch : Epoch) (s : Qsbr) : Z * Qsbr :=
  let global_epoch := global_epoch_ s in
  let next := wrap64 (global_epoch + 1) in
  if (kMagic <? gc_epoch) && (gc_epoch <? global_epoch) then
    let gc_epoch := gc_epoch - kMagic in
    (global_epoch - gc_epoch,
     mkQsbr next (readers_ s) (pop_front_loop gc_epoch (garbage_ s)))
  else (0, mkQsbr next (readers_ s) (garbage_ s)).

(** The entries whose objects the loop destroys. *)
Definition destroyed_from (gc_epoch : Epoch) (s : Qsbr) : list Trash :=
  if (kMagic <? gc_epoch) && (gc_epoch <? global_epoch_ s)
  then popped (gc_epoch - kMagic) (garbage_ s) else [].

Definition destroyed_by_collect (s : Qsbr) : list Trash :=
  destroyed_from (min_quiesced_epoch (readers_ s)) s.

End Readme.

(** ** Sequences of operations *)

(** One call by the writer or by a reader. *)
Inductive Op : Type :=
| OpCreateReader
| OpOnQuiesce (h : Ptr)
| OpRelease (h : Ptr)
| OpDestroyLater (p : Ptr)
| OpGarbageCollect.

Section Machine.

(** The [garbage_collect] of the listing at hand. *)
Variable collect : Qsbr -> Z * Qsbr.

Definition step (s : Qsbr) (o : Op) : Qsbr :=
  match o with
  | OpCreateReader => snd (create_reader s)
  | OpOnQuiesce h => handle_on_quiesce h s
  | OpRelease h => release_reader h s
  | OpDestroyLater p => destroy_later p s
  | OpGarbageCollect => snd (collect s)
  end.

Definition run (s : Qsbr) (tr : list Op) : Qsbr := fold_left step tr s.

End Machine.

(** Number of [garbage_collect] calls in a sequence. *)
Definition collects (tr : list Op) : Z :=
  Z.of_nat (length (filter (fun o => match o with
                                     | OpGarbageCollect => true
                                     | _ => false end) tr)).

(** ** Well-formed values *)

Definition is_epoch (e : Z) : Prop := 0 <= e <= EPOCH_MAX.

(** Every stored epoch is a [uint64_t]. *)
Definition wf (s : Qsbr) : Prop :=
  is_epoch (global_epoch_ s) /\
  Forall (fun r => is_epoch (local_ r)) (readers_ s) /\
  Forall (fun t => is_epoch (epoch t)) (garbage_ s).

(** The tags of the queue, front to back. *)
Definition tags (g : list Trash) : list Epoch := map epoch g.

(** Non-decreasing from front to back. *)
Definition nondecreasing (l : list Epoch) : Prop := Sorted Z.le l.

(** What every state reached before the counter wraps satisfies: no stored
    epoch is ahead of the counter, and the queue is in retirement order. *)
Definition Inv (s : Qsbr) : Prop :=
  is_epoch (global_epoch_ s) /\
  Forall (fun r => 0 <= local_ r <= global_epoch_ s) (readers_ s) /\
  Forall (fun t => 0 <= epoch t <= global_epoch_ s) (garbage_ s) /\
  nondecreasing (tags (garbage_ s)).

(** [after] is [before] without its longest front run of entries tagged
    below [bound], and [destroyed] is that run; on a queue in retirement
    order, nothing tagged below [bound] is left. *)
Definition trimmed_below (bound : Epoch) (before destroyed after : list Trash)
  : Prop :=
  before = destroyed ++ after /\
  Forall (fun t => epoch t < bound) destroyed /\
  match after with [] => True | t :: _ => bound <= epoch t end /\
  (nondecreasing (tags before) -> Forall (fun t => bound <= epoch t) after).

(** ** Concrete runs *)

Module Scenario.

(** Retired objects. *)
Definition A : Ptr := 10%nat.
Definition B : Ptr := 11%nat.

(** The handles of the first and of the second reader registered. *)
Definition r1 : Ptr := 1%nat.
Definition r2 : Ptr := 2%nat.

(** No reader: retire [A], collect. *)
Definition no_reader : list Op := [OpDestroyLater A; OpGarbageCollect].

(** One reader registers, the writer retires [B] and collects. *)
Definition one_reader_first : list Op :=
  [OpCreateReader; OpDestroyLater B; OpGarbageCollect].

(** ... then the reader quiesces and the writer collects again. *)
Definition one_reader_second : list Op :=
  one_reader_first ++ [OpOnQuiesce r1; OpGarbageCollect].

(** Two readers; [B] is retired one generation after they registered; only
    the first reader quiesces afterwards.  The state is the one in which
    the writer is about to collect. *)
Definition stale_front : list Op :=
  [OpCreateReader; OpCreateReader; OpGarbageCollect; OpDestroyLater B;
   OpGarbageCollect; OpGarbageCollect; OpOnQuiesce r1; OpGarbageCollect].

Definition stale_front_state : Qsbr :=
  run Header.garbage_collect Header.init stale_front.

(** The same for the listing with [kMagic]. *)
Definition stale_front_readme : list Op :=
  [OpCreateReader; OpCreateReader; OpGarbageCollect; OpDestroyLater B]
  ++ repeat OpGarbageCollect 129
  ++ [OpOnQuiesce r1; OpGarbageCollect].

Definition stale_front_readme_state : Qsbr :=
  run Readme.garbage_collect Readme.init stale_front_readme.

(** Two readers, both quiesced at epoch 2, [B] retired at epoch 1, the
    counter at 3. *)
Definition both_quiesced : list Op :=
  [OpCreateReader; OpCreateReader; OpGarbageCollect; OpDestroyLater B;
   OpGarbageCollect; OpOnQuiesce r1; OpOnQuiesce r2; OpGarbageCollect].

Definition both_quiesced_state : Qsbr :=
  run Header.garbage_collect Header.init both_quiesced.

(** Two readers, both quiesced at epoch 131, [B] retired at epoch 130, the
    counter at 132. *)
Definition both_quiesced_readme : list Op :=
  [OpCreateReader; OpCreateReader] ++ repeat OpGarbageCollect 129
  ++ [OpDestroyLater B; OpGarbageCollect; OpOnQuiesce r1; OpOnQuiesce r2;
      OpGarbageCollect].

Definition both_quiesced_readme_state : Qsbr :=
  run Readme.garbage_collect Readme.init both_quiesced_readme.

(** Two readers that registered at epoch 0, one collection, empty queue. *)
Definition idle_readers : list Op :=
  [OpCreateReader; OpCreateReader; OpGarbageCollect].

Definition idle_readers_state : Qsbr :=
  run Header.garbage_collect Header.init idle_readers.

(** One reader registered on a fresh instance. *)
Definition lone_reader_state : Qsbr :=
  run Header.garbage_collect Header.init [OpCreateReader].

Definition lone_reader_readme_state : Qsbr :=
  run Readme.garbage_collect Readme.init [OpCreateReader].

(** The writer collects until the counter holds [EPOCH_MAX], retires [A],
    collects once more and retires [B]. *)
Definition wrap_around : list Op :=
  repeat OpGarbageCollect (Z.to_nat EPOCH_MAX)
  ++ [OpDestroyLater A; OpGarbageCollect; OpDestroyLater B].

End Scenario.

(** ** Bookkeeping along a run *)

(** The objects handed to [destroy_later] by a sequence, in call order. *)
Fixpoint retired (tr : list Op) : list Ptr :=
  match tr with
  | [] => []
  | OpDestroyLater p :: tr' => p :: retired tr'
  | _ :: tr' => retired tr'
  end.

Section Ledger.

(** The [garbage_collect] of the listing at hand, and the entries a call of
    it destroys. *)
Variable collect : Qsbr -> Z * Qsbr.
Variable destroyed_by : Qsbr -> list Trash.

(** Everything the [garbage_collect] calls of a sequence destroy, in the
    order of destruction. *)
Fixpoint destroyed_along (s : Qsbr) (tr : list Op) : list Trash :=
  match tr with
  | [] => []
  | o :: tr' =>
      (match o with OpGarbageCollect => destroyed_by s | _ => [] end)
      ++ destroyed_along (step collect s o) tr'
  end.

End Ledger.

(** The operations of the writer thread. *)
Definition is_writer_op (o : Op) : bool :=
  match o with
  | OpDestroyLater _ | OpGarbageCollect => true
  | _ => false
  end.

(** Every registered reader calls [on_quiesce()] once. *)
Definition quiesce_all (rs : list Reader) : list Op :=
  map (fun r => OpOnQuiesce (addr r)) rs.

(** A run of the second listing with its [assert] compiled in: [None] once
    an assertion has failed. *)
Fixpoint run_checked (s : Qsbr) (tr : list Op) : option Qsbr :=
  match tr with
  | [] => Some s
  | OpGarbageCollect :: tr' =>
      match Readme.garbage_collect_checked s with
      | Some (_, s') => run_checked s' tr'
      | None => None
      end
  | o :: tr' => run_checked (step Readme.garbage_collect s o) tr'
  end.

(** * The delimited-text parser: [parse_person]

    [src/cpp/qsbr/qsbr.h] carries the header of the parser ([class Person]
    and the declaration of [parse_person]); the definitions are those of the
    parser's translation unit.  A [std::string_view] and a [std::string] are
    lists of characters; a reference parameter that the source updates is
    returned next to the result. *)

Definition string_view := list ascii.

(** A string literal as a view. *)
Definition sv (s : String.string) : string_view :=
  String.list_ascii_of_string s.
Arguments sv s%_string_scope.

(** [std::numeric_limits<uint32_t>::max()] *)
Definition UINT32_MAX : Z := 2 ^ 32 - 1.

(** [class Person]; [age_{2}] is the default member initializer. *)
Record Person : Type := mkPerson {
  first_name_ : string_view;
  last_name_ : string_view;
  age_ : Z
}.

(** [Person p = {};] *)
Definition Person_default : Person := mkPerson [] [] 2.

Definition first_name (p : Person) : string_view := first_name_ p.
Definition last_name (p : Person) : string_view := last_name_ p.
Definition age (p : Person) : Z := age_ p.

(** [void set_age(uint32_t v) { age_ = v; }] *)
Definition set_age (p : Person) (v : Z) : Person :=
  mkPerson (first_name_ p) (last_name_ p) v.

(** [std::string* mutable_first_name() { return &first_name_; }]: the
    parser's only use of the pointer is [str->assign(...)]; the accessor is
    taken together with that store. *)
Definition mutable_first_name (p : Person) (s : string_view) : Person :=
  mkPerson s (last_name_ p) (age_ p).

Definition mutable_last_name (p : Person) (s : string_view) : Person :=
  mkPerson (first_name_ p) s (age_ p).

(** ** [std::from_chars] for [uint32_t], base 10

    The library function, after [charconv.from.chars]: the subject is the
    longest run of decimal digits at the start of the range (no white
    space, no sign for an unsigned type); with no digit the result is
    [invalid_argument], with a value that does not fit
    [result_out_of_range], and in both cases the output variable is left
    alone. *)

Inductive errc : Type :=
| errc_none
| invalid_argument
| result_out_of_range.

Definition is_digit (c : ascii) : bool :=
  (48 <=? nat_of_ascii c)%nat && (nat_of_ascii c <=? 57)%nat.

Definition digit_value (c : ascii) : Z := Z.of_nat (nat_of_ascii c) - 48.

Fixpoint leading_digits (s : string_view) : string_view :=
  match s with
  | c :: s' => if is_digit c then c :: leading_digits s' else []
  | [] => []
  end.

Definition decimal_value (ds : string_view) : Z :=
  fold_left (fun acc c => 10 * acc + digit_value c) ds 0.

(** Returns [r.ec] and the output variable after the call ([v] before). *)
Definition from_chars_uint32 (s : string_view) (v : Z) : errc * Z :=
  match leading_digits s with
  | [] => (invalid_argument, v)
  | ds => if decimal_value ds <=? UINT32_MAX
          then (errc_none, decimal_value ds)
          else (result_out_of_range, v)
  end.

(** ** Converters *)

(** [try_to<std::string>] *)
Definition try_to_string (segment : string_view) : option string_view :=
  Some segment.

(** [try_to<uint32_t>]: only [r.ec] is looked at; [v] is read on success
    only, so its initial (indeterminate) value does not matter. *)
Definition try_to_uint32 (segment : string_view) : option Z :=
  match from_chars_uint32 segment 0 with
  | (errc_none, v) => Some v
  | _ => None
  end.

(** ** Utilities *)

Fixpoint sv_eqb (a b : string_view) : bool :=
  match a, b with
  | [], [] => true
  | x :: a', y :: b' => Ascii.eqb x y && sv_eqb a' b'
  | _, _ => false
  end.

(** [remove_prefix]: the result and [tgt] after the call. *)
Definition remove_prefix (tgt prefix : string_view) : bool * string_view :=
  if (length prefix <=? length tgt)%nat
     && sv_eqb (firstn (length prefix) tgt) prefix
  then (true, skipn (length prefix) tgt)
  else (false, tgt).

(** [std::find(tgt.begin(), tgt.end(), delimiter)], as an offset from
    [begin()]; the length of the view when the character is absent. *)
Fixpoint std_find (s : string_view) (delimiter : ascii) : nat :=
  match s with
  | [] => 0%nat
  | c :: s' => if Ascii.eqb c delimiter then 0%nat
               else S (std_find s' delimiter)
  end.

(** [split_step]: the view returned and [tgt] after the call. *)
Definition split_step (tgt : string_view) (delimiter : ascii)
  : string_view * string_view :=
  let it := std_find tgt delimiter in
  let result := firstn it tgt in
  let it := if (it <? length tgt)%nat then S it else it in
  (result, skipn it tgt).

(** ** Types *)

(** [struct PathParse] *)
Record PathParse : Type := mkPathParse { path : string_view; ok : bool }.

(** [struct ParseContext]: the two references, as the pair of what they
    refer to. *)
Definition ParseContext (T : Type) : Type := (PathParse * T)%type.

(** [struct IntegralField], at [V = uint32_t]. *)
Record IntegralField (T : Type) : Type := mkIntegralField {
  setter : T -> Z -> T;
  int_required : bool
}.
Arguments mkIntegralField {T} _ _.
Arguments setter {T} _ _ _.
Arguments int_required {T} _.

(** [struct StringField]; the getter is taken with the store through the
    pointer it returns. *)
Record StringField (T : Type) : Type := mkStringField {
  getter : T -> string_view -> T;
  str_required : bool
}.
Arguments mkStringField {T} _ _.
Arguments getter {T} _ _ _.
Arguments str_required {T} _.

(** The field types [operator/] and [parse_segment] are overloaded on. *)
Inductive Field (T : Type) : Type :=
| FInt (f : IntegralField T)
| FStr (f : StringField T).
Arguments FInt {T} _.
Arguments FStr {T} _.

(** ** Factories *)

Definition parse_into {T : Type} (parse : PathParse) (target : T)
  : ParseContext T := (parse, target).

(** [parse.ok = remove_prefix(parse.path, prefix);] *)
Definition start_parse {T : Type} (parse : PathParse) (target : T)
           (prefix : string_view) : ParseContext T :=
  let (r, tgt) := remove_prefix (path parse) prefix in
  parse_into (mkPathParse tgt r) target.

Definition required_int {T : Type} (s : T -> Z -> T) : IntegralField T :=
  mkIntegralField s true.
Definition optional_int {T : Type} (s : T -> Z -> T) : IntegralField T :=
  mkIntegralField s false.
Definition optional_str {T : Type} (g : T -> string_view -> T)
  : StringField T := mkStringField g false.

(** ** Parsers *)

Definition set_ok (p : PathParse) (b : bool) : PathParse :=
  mkPathParse (path p) b.

(** [parse_segment(ctx, IntegralField, segment)] *)
Definition parse_segment_int {T : Type} (ctx : ParseContext T)
           (fld : IntegralField T) (segment : string_view) : ParseContext T :=
  if ok (fst ctx) && negb (sv_eqb segment []) then
    match try_to_uint32 segment with
    | Some v => (fst ctx, setter fld (snd ctx) v)
    | None => (set_ok (fst ctx) false, snd ctx)
    end
  else if int_required fld then (set_ok (fst ctx) false, snd ctx)
  else ctx.

(** [parse_segment(ctx, StringField, segment)] *)
Definition parse_segment_str {T : Type} (ctx : ParseContext T)
           (fld : StringField T) (segment : string_view) : ParseContext T :=
  if ok (fst ctx) && negb (sv_eqb segment []) then
    (fst ctx, getter fld (snd ctx) segment)
  else if str_required fld then (set_ok (fst ctx) false, snd ctx)
  else ctx.

Definition parse_segment {T : Type} (ctx : ParseContext T) (fld : Field T)
           (segment : string_view) : ParseContext T :=
  match fld with
  | FInt f => parse_segment_int ctx f segment
  | FStr f => parse_segment_str ctx f segment
  end.

(** ** Operators *)

(** [operator/(ctx, fld)]: [split_step] advances [ctx.parse.path] before
    [parse_segment] runs. *)
Definition op_div {T : Type} (ctx : ParseContext T) (fld : Field T)
  : ParseContext T :=
  let (segment, rest) := split_step (path (fst ctx)) "/"%char in
  parse_segment (mkPathParse rest (ok (fst ctx)), snd ctx) fld segment.

(** [operator/(ctx, std::pair)] *)
Definition op_div_pair {T : Type} (ctx : ParseContext T)
           (pair : Field T * Field T) : ParseContext T :=
  let (s, rest) := split_step (path (fst ctx)) "/"%char in
  let ctx := (mkPathParse rest (ok (fst ctx)), snd ctx) in
  let (s1, s) := split_step s ","%char in
  let ctx := parse_segment ctx (fst pair) s1 in
  parse_segment ctx (snd pair) s.

(** [operator/(ctx, IntegralFn)] and [operator/(ctx, StringFn)]: required by
    default. *)
Definition op_div_setter {T : Type} (ctx : ParseContext T)
           (s : T -> Z -> T) : ParseContext T :=
  op_div ctx (FInt (mkIntegralField s true)).

Definition op_div_getter {T : Type} (ctx : ParseContext T)
           (g : T -> string_view -> T) : ParseContext T :=
  op_div ctx (FStr (mkStringField g true)).

(** A grammar: the right operands of a chain [ctx / a / b / ...]. *)
Inductive Operand (T : Type) : Type :=
| One (f : Field T)
| Two (pair : Field T * Field T).
Arguments One {T} _.
Arguments Two {T} _.

Definition op_div_any {T : Type} (ctx : ParseContext T) (o : Operand T)
  : ParseContext T :=
  match o with
  | One f => op_div ctx f
  | Two pr => op_div_pair ctx pr
  end.

(** The chain [ctx / o1 / o2 / ...], evaluated left to right. *)
Definition chain {T : Type} (ctx : ParseContext T) (os : list (Operand T))
  : ParseContext T := fold_left op_div_any os ctx.

(** [parse_person]: the result and [person] after the call. *)
Definition parse_person (person : Person) (src : string_view)
  : bool * Person :=
  let p := mkPathParse src true in
  let ctx := start_parse p person (sv "/") in
  let ctx := op_div_getter ctx mutable_first_name in
  let ctx := op_div_getter ctx mutable_last_name in
  let ctx := op_div ctx (FInt (optional_int set_age)) in
  (ok (fst ctx), snd ctx).

(** The right operands of the chain in [parse_person]. *)
Definition person_grammar : list (Operand Person) :=
  [One (FStr (mkStringField mutable_first_name true));
   One (FStr (mkStringField mutable_last_name true));
   One (FInt (optional_int set_age))].

(** [run_parse] of the runner, without the printing. *)
Definition run_parse (txt : string_view) : bool * Person :=
  parse_person Person_default txt.

(** Well-formedness of a concrete state, by evaluation of the state. *)
Ltac wf_by_eval :=
  match goal with
  | |- wf ?s => let v := eval vm_compute in s in change (wf v)
  end;
  unfold wf;
  repeat match goal with
         | |- _ /\ _ => split
         | |- Forall _ _ => constructor
         end;
  unfold is_epoch, EPOCH_MAX; cbn [local_ epoch global_epoch_]; lia.

(** * Properties *)

(** ** The registry *)

Lemma addr_le_max (rs : list Reader) (r : Reader) :
  In r rs -> (addr r <= fold_right Nat.max 0 (map addr rs))%nat.
Proof.
  induction rs as [|x rs IH]; simpl; [tauto|].
  intros [->|Hin]; [lia|]. specialize (IH Hin). lia.
Qed.

(** The address handed out by [create_reader] belongs to no live node. *)
Lemma fresh_addr_new (rs : list Reader) (r : Reader) :
  In r rs -> addr r <> fresh_addr rs.
Proof.
  intros Hin. apply addr_le_max in Hin. unfold fresh_addr. lia.
Qed.

Lemma deref_addr (h : Ptr) (s : Qsbr) (r : Reader) :
  deref h s = Some r -> In r (readers_ s) /\ addr r = h.
Proof.
  unfold deref. intros H. apply find_some in H as [Hin Heq].
  split; [exact Hin|]. now apply Nat.eqb_eq.
Qed.

Lemma find_map_same {A : Type} (p : A -> bool) (f : A -> A) (l : list A) :
  (forall x, p (f x) = p x) ->
  find p (map f l) = option_map f (find p l).
Proof.
  intros Hp. induction l as [|x l IH]; simpl; [reflexivity|].
  rewrite Hp. destruct (p x); [reflexivity|exact IH].
Qed.

Lemma find_filter_keep {A : Type} (p q : A -> bool) (l : list A) :
  (forall x, p x = true -> q x = true) ->
  find p (filter q l) = find p l.
Proof.
  intros Hpq. induction l as [|x l IH]; simpl; [reflexivity|].
  destruct (p x) eqn:Hx.
  - rewrite (Hpq x Hx). simpl. now rewrite Hx.
  - destruct (q x); simpl; [rewrite Hx|]; exact IH.
Qed.

Lemma deref_create_reader_new (s : Qsbr) :
  deref (fst (create_reader s)) (snd (create_reader s))
  = Some (mkReader (fst (create_reader s)) (global_epoch_ s)).
Proof.
  unfold deref, create_reader.
  cbn [fst snd readers_ find Reader_ctor on_quiesce addr].
  now rewrite Nat.eqb_refl.
Qed.

Lemma deref_create_reader_old (h : Ptr) (s : Qsbr) (r : Reader) :
  deref h s = Some r -> deref h (snd (create_reader s)) = Some r.
Proof.
  intros H. destruct (deref_addr _ _ _ H) as [Hin Ha].
  unfold deref, create_reader.
  cbn [snd readers_ find Reader_ctor on_quiesce addr].
  destruct (Nat.eqb_spec (fresh_addr (readers_ s)) h) as [E|_].
  - exfalso. apply (fresh_addr_new _ _ Hin). congruence.
  - exact H.
Qed.

Lemma deref_on_quiesce (h h' : Ptr) (s : Qsbr) (r : Reader) :
  deref h s = Some r ->
  deref h (handle_on_quiesce h' s)
  = Some (if Nat.eqb h h' then on_quiesce (global_epoch_ s) r else r).
Proof.
  intros H. destruct (deref_addr _ _ _ H) as [_ Ha].
  unfold deref, handle_on_quiesce. simpl.
  rewrite find_map_same.
  - unfold deref in H. rewrite H. simpl. now rewrite Ha.
  - intros x. now destruct (Nat.eqb (addr x) h').
Qed.

Lemma deref_release_other (h h' : Ptr) (s : Qsbr) :
  h <> h' -> deref h (release_reader h' s) = deref h s.
Proof.
  intros Hne. unfold deref, release_reader. simpl.
  apply find_filter_keep. intros x Hx.
  apply Nat.eqb_eq in Hx. apply negb_true_iff, Nat.eqb_neq. congruence.
Qed.

Lemma Header_collect_readers (s : Qsbr) :
  readers_ (snd (Header.garbage_collect s)) = readers_ s.
Proof.
  unfold Header.garbage_collect.
  now destruct ((0 <? _) && _).
Qed.

Lemma Readme_collect_readers (s : Qsbr) :
  readers_ (snd (Readme.garbage_collect s)) = readers_ s.
Proof.
  unfold Readme.garbage_collect.
  now destruct ((Readme.kMagic <? _) && _).
Qed.

Section HandleAlongRun.

Variable collect : Qsbr -> Z * Qsbr.
Hypothesis collect_readers :
  forall s, readers_ (snd (collect s)) = readers_ s.

(** What one operation does to the node behind a live handle [h]: only
    [h]'s own [on_quiesce] changes it, as long as [h] is not released. *)
Lemma deref_step (h : Ptr) (s : Qsbr) (r : Reader) (o : Op) :
  deref h s = Some r -> o <> OpRelease h ->
  deref h (step collect s o)
  = Some (match o with
          | OpOnQuiesce h' =>
              if Nat.eqb h h' then on_quiesce (global_epoch_ s) r else r
          | _ => r
          end).
Proof.
  intros H Ho. destruct o as [|h'|h'|p|]; simpl.
  - now apply deref_create_reader_old.
  - now apply deref_on_quiesce.
  - rewrite deref_release_other; [exact H|]. congruence.
  - exact H.
  - unfold deref. rewrite collect_readers. exact H.
Qed.

(** A node that its owner neither quiesces nor releases keeps its
    snapshot, whatever the writer and the other readers do. *)
Lemma deref_run_untouched (h : Ptr) (tr : list Op) (s : Qsbr) (r : Reader) :
  deref h s = Some r ->
  Forall (fun o => o <> OpOnQuiesce h /\ o <> OpRelease h) tr ->
  deref h (run collect s tr) = Some r.
Proof.
  revert s. induction tr as [|o tr IH]; intros s H Htr; [exact H|].
  inversion Htr as [|? ? [Hq Hr] Htr']; subst. simpl.
  apply IH; [|exact Htr'].
  rewrite (deref_step h s r o H Hr).
  destruct o as [|h'| | |]; try reflexivity.
  destruct (Nat.eqb_spec h h') as [->|_]; [congruence|reflexivity].
Qed.

Lemma step_epoch_no_collect (s : Qsbr) (o : Op) :
  o <> OpGarbageCollect ->
  global_epoch_ (step collect s o) = global_epoch_ s.
Proof. destruct o; simpl; congruence. Qed.

(** Between two advances of the counter, a node that was quiesced at the
    current epoch stays there, also when its owner quiesces again. *)
Lemma deref_run_no_advance (h : Ptr) (tr : list Op) (s : Qsbr) (r : Reader) :
  deref h s = Some r -> local_ r = global_epoch_ s ->
  Forall (fun o => o <> OpGarbageCollect /\ o <> OpRelease h) tr ->
  deref h (run collect s tr) = Some r /\
  global_epoch_ (run collect s tr) = global_epoch_ s.
Proof.
  revert s. induction tr as [|o tr IH]; intros s H Hl Htr; [now split|].
  inversion Htr as [|? ? [Hc Hr] Htr']; subst. simpl.
  assert (Hd : deref h (step collect s o) = Some r).
  { rewrite (deref_step h s r o H Hr).
    destruct o as [|h'| | |]; try reflexivity.
    destruct (Nat.eqb h h'); [|reflexivity].
    destruct r as [a l]. simpl in Hl. unfold on_quiesce. simpl. now subst. }
  pose proof (step_epoch_no_collect s o Hc) as He.
  destruct (IH (step collect s o) Hd) as [IH1 IH2]; [congruence|exact Htr'|].
  split; [exact IH1|congruence].
Qed.

End HandleAlongRun.

(** ** [min_quiesced_epoch] *)

Lemma fold_min_le_init (l : list Reader) (m : Z) :
  fold_left (fun min e => Z.min min (current_epoch e)) l m <= m.
Proof.
  revert m. induction l as [|x l IH]; intros m; simpl; [lia|].
  specialize (IH (Z.min m (current_epoch x))). lia.
Qed.

Lemma fold_min_le_elem (l : list Reader) (m : Z) (r : Reader) :
  In r l ->
  fold_left (fun min e => Z.min min (current_epoch e)) l m <= current_epoch r.
Proof.
  revert m. induction l as [|x l IH]; intros m; simpl; [tauto|].
  intros [->|Hin].
  - pose proof (fold_min_le_init l (Z.min m (current_epoch r))). lia.
  - now apply IH.
Qed.

Lemma fold_min_attained (l : list Reader) (m : Z) :
  fold_left (fun min e => Z.min min (current_epoch e)) l m = m \/
  exists r, In r l /\
    fold_left (fun min e => Z.min min (current_epoch e)) l m = current_epoch r.
Proof.
  revert m. induction l as [|x l IH]; intros m; simpl; [now left|].
  destruct (IH (Z.min m (current_epoch x))) as [E|[r [Hin E]]].
  - rewrite E. destruct (Z.min_spec m (current_epoch x)) as [[_ ->]|[_ ->]].
    + now left.
    + right. exists x. split; [now left|reflexivity].
  - right. exists r. split; [now right|exact E].
Qed.

(** With no reader, or with one, the loop body never runs. *)
Lemma min_quiesced_epoch_nil : min_quiesced_epoch [] = EPOCH_MAX.
Proof. reflexivity. Qed.

Lemma min_quiesced_epoch_single (r : Reader) :
  min_quiesced_epoch [r] = EPOCH_MAX.
Proof. reflexivity. Qed.

(** The value computed bounds the epoch of every reader behind the front
    one. *)
Lemma min_quiesced_epoch_le_tail (rs : list Reader) (r : Reader) :
  In r (tl rs) -> min_quiesced_epoch rs <= current_epoch r.
Proof. apply fold_min_le_elem. Qed.

Lemma min_quiesced_epoch_range (rs : list Reader) :
  Forall (fun r => is_epoch (local_ r)) rs ->
  is_epoch (min_quiesced_epoch rs).
Proof.
  intros Hrs. unfold min_quiesced_epoch.
  destruct (fold_min_attained (tl rs) EPOCH_MAX) as [->|[r [Hin ->]]].
  - unfold is_epoch, EPOCH_MAX. lia.
  - rewrite Forall_forall in Hrs. apply Hrs.
    destruct rs; simpl in Hin; [tauto|now right].
Qed.

(** ** The trimming loop *)

Lemma popped_app (gc : Epoch) (g : list Trash) :
  g = popped gc g ++ pop_front_loop gc g.
Proof.
  induction g as [|t g IH]; simpl; [reflexivity|].
  destruct (epoch t <? gc); simpl; [now f_equal|reflexivity].
Qed.

Lemma popped_lt (gc : Epoch) (g : list Trash) :
  Forall (fun t => epoch t < gc) (popped gc g).
Proof.
  induction g as [|t g IH]; simpl; [constructor|].
  destruct (Z.ltb_spec (epoch t) gc); [now constructor|constructor].
Qed.

Lemma pop_front_loop_front (gc : Epoch) (g : list Trash) :
  match pop_front_loop gc g with
  | [] => True
  | t :: _ => gc <= epoch t
  end.
Proof.
  induction g as [|t g IH]; simpl; [exact I|].
  destruct (Z.ltb_spec (epoch t) gc); [exact IH|assumption].
Qed.

Lemma nondecreasing_tail_ge (t : Trash) (g : list Trash) :
  nondecreasing (tags (t :: g)) ->
  Forall (fun u => epoch t <= epoch u) g.
Proof.
  unfold nondecreasing, tags. simpl. intros H.
  apply Sorted_StronglySorted in H; [|intros x y z; lia].
  inversion H as [|? ? _ Hall]; subst.
  rewrite Forall_map in Hall. exact Hall.
Qed.

(** On a non-decreasing queue the loop leaves no eligible entry behind. *)
Lemma pop_front_loop_rest (gc : Epoch) (g : list Trash) :
  nondecreasing (tags g) ->
  Forall (fun t => gc <= epoch t) (pop_front_loop gc g).
Proof.
  induction g as [|t g IH]; simpl; intros Hs; [constructor|].
  destruct (Z.ltb_spec (epoch t) gc) as [Hlt|Hge].
  - apply IH. unfold nondecreasing, tags in *. simpl in Hs.
    now inversion Hs.
  - constructor; [exact Hge|].
    eapply Forall_impl; [|apply (nondecreasing_tail_ge t g Hs)].
    simpl. intros u Hu. lia.
Qed.

(** ** Registration and quiescing *)

(** C9.  [create_reader] puts the new node at the front of the registry and
    its constructor quiesces once: right after registration the handle's
    [current_epoch()] is the value the epoch counter holds at that moment
    (the counter itself is not changed, and the address is that of no other
    live node).  That snapshot is what the reader contributes for as long as
    it calls neither [on_quiesce()] nor releases the handle, whatever the
    writer and the other readers do in the meantime. *)
Theorem create_reader_initial_quiesce (s : Qsbr) (tr : list Op) :
  Forall (fun o => o <> OpOnQuiesce (fst (create_reader s)) /\
                   o <> OpRelease (fst (create_reader s))) tr ->
  readers_ (snd (create_reader s))
  = mkReader (fst (create_reader s)) (global_epoch_ s) :: readers_ s /\
  ~ In (fst (create_reader s)) (map addr (readers_ s)) /\
  global_epoch_ (snd (create_reader s)) = global_epoch_ s /\
  handle_current_epoch (fst (create_reader s)) (snd (create_reader s))
  = Some (global_epoch_ s) /\
  handle_current_epoch (fst (create_reader s))
    (run Header.garbage_collect (snd (create_reader s)) tr)
  = Some (global_epoch_ s).
Proof.
  intros Htr.
  split; [reflexivity|]. split.
  { intros Hin. apply in_map_iff in Hin as [r [Ha Hr]].
    apply (fresh_addr_new _ _ Hr). exact Ha. }
  split; [reflexivity|].
  pose proof (deref_create_reader_new s) as Hd.
  split.
  - unfold handle_current_epoch. now rewrite Hd.
  - unfold handle_current_epoch.
    rewrite (deref_run_untouched Header.garbage_collect Header_collect_readers
               _ tr _ _ Hd Htr).
    reflexivity.
Qed.

Lemma create_reader_initial_quiesce_witness :
  handle_current_epoch Scenario.r1
    (run Header.garbage_collect (snd (create_reader Header.init))
       [OpGarbageCollect; OpDestroyLater Scenario.A; OpCreateReader;
        OpOnQuiesce Scenario.r2; OpGarbageCollect])
  = Some 0.
Proof.
  apply (create_reader_initial_quiesce Header.init
           [OpGarbageCollect; OpDestroyLater Scenario.A; OpCreateReader;
            OpOnQuiesce Scenario.r2; OpGarbageCollect]).
  repeat constructor; discriminate.
Defined.

(** The same persistence for the listing with [kMagic]. *)
Lemma create_reader_snapshot_readme (s : Qsbr) (tr : list Op) :
  Forall (fun o => o <> OpOnQuiesce (fst (create_reader s)) /\
                   o <> OpRelease (fst (create_reader s))) tr ->
  handle_current_epoch (fst (create_reader s))
    (run Readme.garbage_collect (snd (create_reader s)) tr)
  = Some (global_epoch_ s).
Proof.
  intros Htr. unfold handle_current_epoch.
  rewrite (deref_run_untouched Readme.garbage_collect Readme_collect_readers
             _ tr _ _ (deref_create_reader_new s) Htr).
  reflexivity.
Qed.

Lemma on_quiesce_twice (g : Epoch) (r : Reader) :
  on_quiesce g (on_quiesce g r) = on_quiesce g r.
Proof. reflexivity. Qed.

Lemma handle_on_quiesce_twice (h : Ptr) (s : Qsbr) :
  handle_on_quiesce h (handle_on_quiesce h s) = handle_on_quiesce h s.
Proof.
  unfold handle_on_quiesce. simpl. f_equal.
  rewrite map_map. apply map_ext. intros e.
  destruct (Nat.eqb (addr e) h) eqn:E; simpl; rewrite E; reflexivity.
Qed.

Lemma run_repeat_on_quiesce (collect : Qsbr -> Z * Qsbr) (h : Ptr)
      (n : nat) (s : Qsbr) :
  run collect (handle_on_quiesce h s) (repeat (OpOnQuiesce h) n)
  = handle_on_quiesce h s.
Proof.
  induction n as [|n IH]; simpl; [reflexivity|].
  rewrite handle_on_quiesce_twice. exact IH.
Qed.

(** C10.  Once a registered handle has called [on_quiesce()], calling it
    again any number of times leaves the state as it is; and through any
    sequence of operations that does not advance the epoch counter (no
    [garbage_collect]) nor releases the handle -- further [on_quiesce()]
    calls of this or of other readers, registrations, retirements -- the
    handle's [current_epoch()] stays what the first call stored, the value
    of the counter. *)
Theorem on_quiesce_idempotent (s : Qsbr) (h : Ptr) (tr : list Op) (n : nat) :
  deref h s <> None ->
  Forall (fun o => o <> OpGarbageCollect /\ o <> OpRelease h) tr ->
  run Header.garbage_collect (handle_on_quiesce h s) (repeat (OpOnQuiesce h) n)
  = handle_on_quiesce h s /\
  handle_current_epoch h (handle_on_quiesce h s) = Some (global_epoch_ s) /\
  handle_current_epoch h
    (run Header.garbage_collect (handle_on_quiesce h s) tr)
  = handle_current_epoch h (handle_on_quiesce h s).
Proof.
  intros Hreg Htr.
  split; [apply run_repeat_on_quiesce|].
  destruct (deref h s) as [r|] eqn:Hd; [clear Hreg|congruence].
  pose proof (deref_on_quiesce h h s r Hd) as Hq.
  rewrite Nat.eqb_refl in Hq.
  assert (H1 : handle_current_epoch h (handle_on_quiesce h s)
               = Some (global_epoch_ s)).
  { unfold handle_current_epoch. rewrite Hq. reflexivity. }
  split; [exact H1|].
  rewrite H1. unfold handle_current_epoch.
  destruct (deref_run_no_advance Header.garbage_collect Header_collect_readers
              h tr (handle_on_quiesce h s) _ Hq eq_refl Htr) as [-> _].
  reflexivity.
Qed.

Lemma on_quiesce_idempotent_witness :
  handle_current_epoch Scenario.r1
    (run Header.garbage_collect
       (handle_on_quiesce Scenario.r1 Scenario.idle_readers_state)
       [OpOnQuiesce Scenario.r1; OpDestroyLater Scenario.A; OpCreateReader;
        OpOnQuiesce Scenario.r2; OpOnQuiesce Scenario.r1])
  = handle_current_epoch Scenario.r1
      (handle_on_quiesce Scenario.r1 Scenario.idle_readers_state).
Proof.
  apply (on_quiesce_idempotent Scenario.idle_readers_state Scenario.r1
           [OpOnQuiesce Scenario.r1; OpDestroyLater Scenario.A; OpCreateReader;
            OpOnQuiesce Scenario.r2; OpOnQuiesce Scenario.r1] 3).
  - vm_compute. discriminate.
  - repeat constructor; discriminate.
Defined.

(** ** A registry of one reader *)

Lemma sentinel_never_trims (e : Epoch) :
  is_epoch e -> (EPOCH_MAX <? e) = false.
Proof. unfold is_epoch. intros H. apply Z.ltb_ge. lia. Qed.

(** C4.  With exactly one registered reader, whatever its epoch, whatever
    the global epoch (a [uint64_t]) and whatever the queue holds,
    [min_quiesced_epoch] skips the only node and returns the sentinel
    [EPOCH_MAX], and [garbage_collect] leaves the queue, hence
    [pending_garbage()], as it was. *)
Theorem single_reader_never_collects (r : Reader) (e : Epoch) (g : list Trash) :
  is_epoch e ->
  min_quiesced_epoch (readers_ (mkQsbr e [r] g)) = EPOCH_MAX /\
  garbage_ (snd (Header.garbage_collect (mkQsbr e [r] g))) = g /\
  pending_garbage (snd (Header.garbage_collect (mkQsbr e [r] g)))
  = pending_garbage (mkQsbr e [r] g).
Proof.
  intros He.
  assert (Hg : garbage_ (snd (Header.garbage_collect (mkQsbr e [r] g))) = g).
  { unfold Header.garbage_collect. simpl readers_. simpl global_epoch_.
    rewrite min_quiesced_epoch_single, (sentinel_never_trims e He).
    rewrite andb_false_r. reflexivity. }
  split; [reflexivity|]. split; [exact Hg|].
  unfold pending_garbage. now rewrite Hg.
Qed.

Lemma single_reader_never_collects_witness :
  garbage_ (snd (Header.garbage_collect
                   (mkQsbr 9 [mkReader 1%nat 5] [mkTrash 0 Scenario.A;
                                              mkTrash 3 Scenario.B])))
  = [mkTrash 0 Scenario.A; mkTrash 3 Scenario.B].
Proof.
  apply (single_reader_never_collects (mkReader 1%nat 5) 9
           [mkTrash 0 Scenario.A; mkTrash 3 Scenario.B]).
  unfold is_epoch, EPOCH_MAX. lia.
Defined.

(** The listing with [kMagic] behaves the same way. *)
Lemma single_reader_never_collects_readme
      (r : Reader) (e : Epoch) (g : list Trash) :
  is_epoch e ->
  garbage_ (snd (Readme.garbage_collect (mkQsbr e [r] g))) = g.
Proof.
  intros He. unfold Readme.garbage_collect. simpl readers_. simpl global_epoch_.
  rewrite min_quiesced_epoch_single, (sentinel_never_trims e He).
  rewrite andb_false_r. reflexivity.
Qed.

(** ** What a collection destroys *)

Lemma Header_collect_from_min (s : Qsbr) :
  Header.garbage_collect s
  = Header.garbage_collect_from (min_quiesced_epoch (readers_ s)) s.
Proof. reflexivity. Qed.

Lemma Readme_collect_from_min (s : Qsbr) :
  Readme.garbage_collect s
  = Readme.garbage_collect_from (min_quiesced_epoch (readers_ s)) s.
Proof. reflexivity. Qed.

(** The queue before a collection is what was destroyed followed by what
    is left: entries leave from the front only. *)
Lemma Header_destroyed_split (gc : Epoch) (s : Qsbr) :
  garbage_ s
  = Header.destroyed_from gc s
    ++ garbage_ (snd (Header.garbage_collect_from gc s)).
Proof.
  unfold Header.destroyed_from, Header.garbage_collect_from.
  destruct ((0 <? gc) && (gc <? global_epoch_ s)); simpl;
    [apply popped_app|reflexivity].
Qed.

Lemma Readme_destroyed_split (gc : Epoch) (s : Qsbr) :
  garbage_ s
  = Readme.destroyed_from gc s
    ++ garbage_ (snd (Readme.garbage_collect_from gc s)).
Proof.
  unfold Readme.destroyed_from, Readme.garbage_collect_from.
  destruct ((Readme.kMagic <? gc) && (gc <? global_epoch_ s)); simpl;
    [apply popped_app|reflexivity].
Qed.

Lemma Header_destroyed_older (gc : Epoch) (s : Qsbr) (t : Trash) :
  In t (Header.destroyed_from gc s) -> epoch t < gc - 1.
Proof.
  unfold Header.destroyed_from.
  destruct ((0 <? gc) && (gc <? global_epoch_ s)); [|intros []].
  pose proof (popped_lt (gc - 1) (garbage_ s)) as H.
  rewrite Forall_forall in H. apply H.
Qed.

Lemma Readme_destroyed_older (gc : Epoch) (s : Qsbr) (t : Trash) :
  In t (Readme.destroyed_from gc s) -> epoch t < gc - Readme.kMagic.
Proof.
  unfold Readme.destroyed_from.
  destruct ((Readme.kMagic <? gc) && (gc <? global_epoch_ s)); [|intros []].
  pose proof (popped_lt (gc - Readme.kMagic) (garbage_ s)) as H.
  rewrite Forall_forall in H. apply H.
Qed.

Lemma min_quiesced_skips_front (rs : list Reader) :
  min_quiesced_epoch rs = documented_min_epoch (tl rs).
Proof. reflexivity. Qed.

Lemma documented_min_le (rs : list Reader) (r : Reader) :
  In r rs -> documented_min_epoch rs <= current_epoch r.
Proof. apply fold_min_le_elem. Qed.

(** What [garbage_collect] does guarantee: an entry it destroys was retired
    before the epoch of every reader behind the front one. *)
Lemma collect_safe_behind_front (s : Qsbr) (t : Trash) (r : Reader) :
  In t (Header.destroyed_by_collect s) -> In r (tl (readers_ s)) ->
  epoch t < current_epoch r.
Proof.
  intros Ht Hr. apply Header_destroyed_older in Ht.
  pose proof (min_quiesced_epoch_le_tail _ _ Hr). lia.
Qed.

(** Fed with the minimum over the whole registry, the same body destroys
    nothing that any registered reader could still see. *)
Lemma collect_safe_with_documented_min (s : Qsbr) (t : Trash) (r : Reader) :
  In t (Header.destroyed_from (documented_min_epoch (readers_ s)) s) ->
  In r (readers_ s) ->
  epoch t < current_epoch r.
Proof.
  intros Ht Hr. apply Header_destroyed_older in Ht.
  pose proof (documented_min_le _ _ Hr). lia.
Qed.

(** C1, evaluated.  Two readers register at epoch 0; [B] is retired at epoch
    1; only the reader registered first quiesces later (at epoch 3).  The
    next [garbage_collect] destroys [B] although the reader at the front of
    the registry still has [current_epoch() = 0 < 1]. *)
Theorem front_reader_not_protected :
  Scenario.stale_front_state
  = mkQsbr 4 [mkReader Scenario.r2 0; mkReader Scenario.r1 3]
           [mkTrash 1 Scenario.B] /\
  Header.destroyed_by_collect Scenario.stale_front_state
  = [mkTrash 1 Scenario.B] /\
  garbage_ (snd (Header.garbage_collect Scenario.stale_front_state)) = [] /\
  handle_current_epoch Scenario.r2 Scenario.stale_front_state = Some 0 /\
  exists t r,
    In t (Header.destroyed_by_collect Scenario.stale_front_state) /\
    In r (readers_ Scenario.stale_front_state) /\
    current_epoch r < epoch t.
Proof.
  repeat split; try reflexivity.
  exists (mkTrash 1 Scenario.B), (mkReader Scenario.r2 0).
  repeat split; [now left|now left].
Qed.

(** The listing with [kMagic] loses the front reader in the same way, 128
    generations later. *)
Lemma front_reader_not_protected_readme :
  Scenario.stale_front_readme_state
  = mkQsbr 132 [mkReader Scenario.r2 1; mkReader Scenario.r1 131]
           [mkTrash 2 Scenario.B] /\
  Readme.destroyed_by_collect Scenario.stale_front_readme_state
  = [mkTrash 2 Scenario.B] /\
  garbage_ (snd (Readme.garbage_collect Scenario.stale_front_readme_state))
  = [].
Proof. repeat split; vm_compute; reflexivity. Qed.

(** ** No reader *)

Lemma no_reader_never_collects (s : Qsbr) :
  readers_ s = [] -> is_epoch (global_epoch_ s) ->
  garbage_ (snd (Header.garbage_collect s)) = garbage_ s /\
  garbage_ (snd (Readme.garbage_collect s)) = garbage_ s.
Proof.
  intros Hr He.
  unfold Header.garbage_collect, Readme.garbage_collect.
  rewrite Hr, min_quiesced_epoch_nil, (sentinel_never_trims _ He).
  rewrite !andb_false_r. split; reflexivity.
Qed.

(** C2, evaluated.  On a fresh instance without readers the writer retires
    [A] and calls [garbage_collect()] once: [A] is still queued and
    [pending_garbage()] is 1, in both listings. *)
Theorem no_reader_collect_keeps_garbage :
  garbage_ (run Header.garbage_collect Header.init Scenario.no_reader)
  = [mkTrash 0 Scenario.A] /\
  pending_garbage (run Header.garbage_collect Header.init Scenario.no_reader)
  = 1%nat /\
  garbage_ (run Readme.garbage_collect Readme.init Scenario.no_reader)
  = [mkTrash 1 Scenario.A] /\
  pending_garbage (run Readme.garbage_collect Readme.init Scenario.no_reader)
  = 1%nat.
Proof. repeat split; reflexivity. Qed.

(** ** The value of [min_quiesced_epoch] against the counter *)

(** C5, evaluated.  One reader registers on a fresh instance and the writer
    calls [garbage_collect()]: the registry is not empty, the minimum over
    its readers is the epoch of that reader, yet [min_quiesced_epoch]
    returns [EPOCH_MAX], above the pre-advance counter.  In the second
    listing the [assert] lets the value through as the no-reader
    sentinel. *)
Theorem lone_reader_min_exceeds_global :
  readers_ Scenario.lone_reader_state = [mkReader Scenario.r1 0] /\
  global_epoch_ Scenario.lone_reader_state = 0 /\
  documented_min_epoch (readers_ Scenario.lone_reader_state) = 0 /\
  min_quiesced_epoch (readers_ Scenario.lone_reader_state) = EPOCH_MAX /\
  global_epoch_ Scenario.lone_reader_state
  < min_quiesced_epoch (readers_ Scenario.lone_reader_state) /\
  global_epoch_ Scenario.lone_reader_readme_state
  < min_quiesced_epoch (readers_ Scenario.lone_reader_readme_state) /\
  Readme.assert_cond
    (min_quiesced_epoch (readers_ Scenario.lone_reader_readme_state))
    (global_epoch_ Scenario.lone_reader_readme_state) = true.
Proof. repeat split; reflexivity. Qed.

(** ** The one-reader scenario *)

(** C3 as stated fails: after the reader has quiesced and the writer has
    collected a second time, [B] is still in the queue, in both listings. *)
Lemma one_reader_B_not_destroyed :
  ~ (garbage_ (run Header.garbage_collect Header.init
                 Scenario.one_reader_second) = []) /\
  ~ (garbage_ (run Readme.garbage_collect Readme.init
                 Scenario.one_reader_second) = []) /\
  handle_current_epoch Scenario.r1
    (run Header.garbage_collect Header.init [OpCreateReader]) <> Some 1.
Proof. repeat split; vm_compute; discriminate. Qed.

(** C3, amended.  From a fresh instance, with [e0] the initial epoch (0 in
    [qsbr.h], 1 in the second listing): a reader registers and observes
    [e0]; the writer retires [B], tagged [e0], and collects, the counter
    becoming [e0 + 1]; [B] is not destroyed and [pending_garbage()] is 1.
    The reader quiesces, observing [e0 + 1]; the writer collects again, the
    counter becoming [e0 + 2]; [B] is still queued and [pending_garbage()]
    is still 1. *)
Theorem one_reader_scenario :
  (handle_current_epoch Scenario.r1
     (run Header.garbage_collect Header.init [OpCreateReader]) = Some 0 /\
   run Header.garbage_collect Header.init Scenario.one_reader_first
   = mkQsbr 1 [mkReader Scenario.r1 0] [mkTrash 0 Scenario.B] /\
   pending_garbage
     (run Header.garbage_collect Header.init Scenario.one_reader_first)
   = 1%nat /\
   run Header.garbage_collect Header.init Scenario.one_reader_second
   = mkQsbr 2 [mkReader Scenario.r1 1] [mkTrash 0 Scenario.B] /\
   pending_garbage
     (run Header.garbage_collect Header.init Scenario.one_reader_second)
   = 1%nat) /\
  (handle_current_epoch Scenario.r1
     (run Readme.garbage_collect Readme.init [OpCreateReader]) = Some 1 /\
   run Readme.garbage_collect Readme.init Scenario.one_reader_first
   = mkQsbr 2 [mkReader Scenario.r1 1] [mkTrash 1 Scenario.B] /\
   pending_garbage
     (run Readme.garbage_collect Readme.init Scenario.one_reader_first)
   = 1%nat /\
   run Readme.garbage_collect Readme.init Scenario.one_reader_second
   = mkQsbr 3 [mkReader Scenario.r1 2] [mkTrash 1 Scenario.B] /\
   pending_garbage
     (run Readme.garbage_collect Readme.init Scenario.one_reader_second)
   = 1%nat).
Proof. repeat split; reflexivity. Qed.

(** In that scenario the second collection keeps [B] also when the body of
    [garbage_collect] is given the minimum over the whole registry: the
    reader's epoch equals the pre-advance counter, and the guard asks for
    strictly less (and, in the second listing, for more than [kMagic]). *)
Lemma one_reader_scenario_documented_min :
  garbage_ (snd (Header.garbage_collect_from
                   (documented_min_epoch [mkReader Scenario.r1 1])
                   (mkQsbr 1 [mkReader Scenario.r1 1] [mkTrash 0 Scenario.B])))
  = [mkTrash 0 Scenario.B] /\
  garbage_ (snd (Readme.garbage_collect_from
                   (documented_min_epoch [mkReader Scenario.r1 2])
                   (mkQsbr 2 [mkReader Scenario.r1 2] [mkTrash 1 Scenario.B])))
  = [mkTrash 1 Scenario.B].
Proof. split; reflexivity. Qed.

(** ** One collection: what is trimmed and what is returned *)

Lemma trimmed_below_loop (bound : Epoch) (g : list Trash) :
  trimmed_below bound g (popped bound g) (pop_front_loop bound g).
Proof.
  repeat split.
  - apply popped_app.
  - apply popped_lt.
  - apply pop_front_loop_front.
  - apply pop_front_loop_rest.
Qed.

Lemma trimmed_below_none (bound : Epoch) (g : list Trash) :
  Forall (fun t => bound <= epoch t) g -> trimmed_below bound g [] g.
Proof.
  intros H. repeat split; [constructor| |now intros _].
  destruct g; [exact I|]. now inversion H.
Qed.

Lemma wf_tags_above (s : Qsbr) (bound : Epoch) :
  wf s -> bound <= 0 -> Forall (fun t => bound <= epoch t) (garbage_ s).
Proof.
  intros (_ & _ & Hg) Hb. eapply Forall_impl; [|exact Hg].
  unfold is_epoch. simpl. intros t Ht. lia.
Qed.

(** The run of the loop in [qsbr.h], whenever the computed minimum is below
    the pre-advance counter. *)
Lemma Header_trims (s : Qsbr) :
  wf s ->
  min_quiesced_epoch (readers_ s) < global_epoch_ s ->
  trimmed_below (min_quiesced_epoch (readers_ s) - 1) (garbage_ s)
    (Header.destroyed_by_collect s)
    (garbage_ (snd (Header.garbage_collect s))).
Proof.
  intros Hwf Hlt. apply Z.ltb_lt in Hlt.
  unfold Header.destroyed_by_collect, Header.destroyed_from,
    Header.garbage_collect.
  rewrite Hlt, andb_true_r.
  destruct (Z.ltb_spec 0 (min_quiesced_epoch (readers_ s))) as [Hpos|Hz].
  - apply trimmed_below_loop.
  - simpl. apply trimmed_below_none, (wf_tags_above s); [exact Hwf|].
    unfold Readme.kMagic in *. lia.
Qed.

(** The same for the listing with [kMagic]. *)
Lemma Readme_trims (s : Qsbr) :
  wf s ->
  min_quiesced_epoch (readers_ s) < global_epoch_ s ->
  trimmed_below (min_quiesced_epoch (readers_ s) - Readme.kMagic) (garbage_ s)
    (Readme.destroyed_by_collect s)
    (garbage_ (snd (Readme.garbage_collect s))).
Proof.
  intros Hwf Hlt. apply Z.ltb_lt in Hlt.
  unfold Readme.destroyed_by_collect, Readme.destroyed_from,
    Readme.garbage_collect.
  rewrite Hlt, andb_true_r.
  destruct (Z.ltb_spec Readme.kMagic (min_quiesced_epoch (readers_ s)))
    as [Hpos|Hz].
  - apply trimmed_below_loop.
  - simpl. apply trimmed_below_none, (wf_tags_above s); [exact Hwf|].
    unfold Readme.kMagic in *. lia.
Qed.

(** C6 as stated fails: both readers have quiesced at epoch 2, the counter
    is at 3, and [B], tagged 1, is below the minimum 2; [garbage_collect()]
    trims below 1 only and leaves [B] queued. *)
Lemma entry_below_min_not_trimmed :
  readers_ Scenario.both_quiesced_state
  = [mkReader Scenario.r2 2; mkReader Scenario.r1 2] /\
  min_quiesced_epoch (readers_ Scenario.both_quiesced_state) = 2 /\
  documented_min_epoch (readers_ Scenario.both_quiesced_state) = 2 /\
  global_epoch_ Scenario.both_quiesced_state = 3 /\
  garbage_ Scenario.both_quiesced_state = [mkTrash 1 Scenario.B] /\
  ~ (forall t, In t (garbage_ Scenario.both_quiesced_state) ->
       epoch t < min_quiesced_epoch (readers_ Scenario.both_quiesced_state) ->
       ~ In t (garbage_ (snd (Header.garbage_collect
                                Scenario.both_quiesced_state)))).
Proof.
  repeat split; try reflexivity.
  intros H. apply (H (mkTrash 1 Scenario.B)).
  - now left.
  - vm_compute. reflexivity.
  - now left.
Qed.

(** The listing with [kMagic]: minimum 131, counter 132, [B] tagged 130 is
    kept. *)
Lemma entry_below_min_not_trimmed_readme :
  min_quiesced_epoch (readers_ Scenario.both_quiesced_readme_state) = 131 /\
  global_epoch_ Scenario.both_quiesced_readme_state = 132 /\
  garbage_ Scenario.both_quiesced_readme_state = [mkTrash 130 Scenario.B] /\
  garbage_ (snd (Readme.garbage_collect Scenario.both_quiesced_readme_state))
  = [mkTrash 130 Scenario.B].
Proof. repeat split; vm_compute; reflexivity. Qed.

(** C6, amended.  When the value [m] returned by [min_quiesced_epoch] is
    strictly below the pre-advance global epoch, [garbage_collect()] removes
    from the front of the queue the entries tagged strictly below [m - 1]
    ([m - kMagic] in the second listing), oldest first, and stops at the
    first entry that is not: the queue before is the destroyed entries
    followed by the queue after, every destroyed entry is tagged below the
    bound, the new front is not, and on a queue in retirement order no entry
    left is. *)
Theorem collect_trims_below_lagged_min (s : Qsbr) :
  wf s ->
  min_quiesced_epoch (readers_ s) < global_epoch_ s ->
  trimmed_below (min_quiesced_epoch (readers_ s) - 1) (garbage_ s)
    (Header.destroyed_by_collect s)
    (garbage_ (snd (Header.garbage_collect s))) /\
  trimmed_below (min_quiesced_epoch (readers_ s) - Readme.kMagic) (garbage_ s)
    (Readme.destroyed_by_collect s)
    (garbage_ (snd (Readme.garbage_collect s))).
Proof.
  intros Hwf Hlt. split; [now apply Header_trims|now apply Readme_trims].
Qed.

Lemma collect_trims_below_lagged_min_witness :
  trimmed_below
    (min_quiesced_epoch (readers_ Scenario.stale_front_state) - 1)
    (garbage_ Scenario.stale_front_state)
    (Header.destroyed_by_collect Scenario.stale_front_state)
    (garbage_ (snd (Header.garbage_collect Scenario.stale_front_state))).
Proof.
  refine (proj1 (collect_trims_below_lagged_min Scenario.stale_front_state _ _)).
  - wf_by_eval.
  - vm_compute. reflexivity.
Defined.

(** C7 as stated fails: a call that collects nothing need not return 0.  In
    [qsbr.h], with two readers at epoch 0, an empty queue and the counter at
    1, the call destroys nothing and returns 1.  In the second listing, with
    both readers at 131 and the counter at 132, the call destroys nothing
    (the only entry is tagged 130, the bound is 3) and returns 129. *)
Lemma collect_nothing_returns_nonzero :
  Header.destroyed_by_collect Scenario.idle_readers_state = [] /\
  garbage_ (snd (Header.garbage_collect Scenario.idle_readers_state))
  = garbage_ Scenario.idle_readers_state /\
  fst (Header.garbage_collect Scenario.idle_readers_state) = 1 /\
  fst (Header.garbage_collect Scenario.idle_readers_state) <> 0 /\
  Readme.destroyed_by_collect Scenario.both_quiesced_readme_state = [] /\
  garbage_ (snd (Readme.garbage_collect Scenario.both_quiesced_readme_state))
  = garbage_ Scenario.both_quiesced_readme_state /\
  fst (Readme.garbage_collect Scenario.both_quiesced_readme_state) = 129 /\
  fst (Readme.garbage_collect Scenario.both_quiesced_readme_state) <> 0.
Proof. repeat split; vm_compute; (reflexivity || discriminate). Qed.

(** C7, amended.  With [m] the value of [min_quiesced_epoch] and
    [global_epoch] the pre-advance counter, [garbage_collect()] returns the
    distance from the gc epoch to [global_epoch], whether or not an entry
    was removed.  In [qsbr.h]: when the loop ran ([0 < m < global_epoch]) it
    returns [global_epoch - (m - 1)], the bound used for trimming being
    [m - 1]; when [m = 0] it returns [global_epoch] and when
    [global_epoch <= m] it returns 0, the queue being untouched in both
    cases.  In the second listing: when the loop ran
    ([kMagic < m < global_epoch]) it returns [global_epoch - (m - kMagic)],
    and 0 otherwise.  The value is a [uint64_t] and no subtraction
    wraps. *)
Theorem collect_returns_epoch_lag (s : Qsbr) :
  wf s ->
  0 <= min_quiesced_epoch (readers_ s) /\
  (0 < min_quiesced_epoch (readers_ s) < global_epoch_ s ->
     fst (Header.garbage_collect s)
     = global_epoch_ s - (min_quiesced_epoch (readers_ s) - 1) /\
     garbage_ (snd (Header.garbage_collect s))
     = pop_front_loop (min_quiesced_epoch (readers_ s) - 1) (garbage_ s)) /\
  (min_quiesced_epoch (readers_ s) = 0 ->
     fst (Header.garbage_collect s) = global_epoch_ s /\
     garbage_ (snd (Header.garbage_collect s)) = garbage_ s) /\
  (global_epoch_ s <= min_quiesced_epoch (readers_ s) ->
     fst (Header.garbage_collect s) = 0 /\
     garbage_ (snd (Header.garbage_collect s)) = garbage_ s) /\
  is_epoch (fst (Header.garbage_collect s)) /\
  (Readme.kMagic < min_quiesced_epoch (readers_ s) < global_epoch_ s ->
     fst (Readme.garbage_collect s)
     = global_epoch_ s - (min_quiesced_epoch (readers_ s) - Readme.kMagic) /\
     garbage_ (snd (Readme.garbage_collect s))
     = pop_front_loop (min_quiesced_epoch (readers_ s) - Readme.kMagic)
         (garbage_ s)) /\
  (~ Readme.kMagic < min_quiesced_epoch (readers_ s) < global_epoch_ s ->
     fst (Readme.garbage_collect s) = 0 /\
     garbage_ (snd (Readme.garbage_collect s)) = garbage_ s) /\
  is_epoch (fst (Readme.garbage_collect s)).
Proof.
  intros Hwf.
  pose proof Hwf as (Hg & Hr & _).
  apply min_quiesced_epoch_range in Hr.
  unfold is_epoch in *.
  unfold Header.garbage_collect, Readme.garbage_collect, Readme.kMagic.
  set (m := min_quiesced_epoch (readers_ s)) in *.
  set (ge := global_epoch_ s) in *.
  destruct (Z.ltb_spec 0 m); destruct (Z.ltb_spec m ge);
    destruct (Z.ltb_spec 128 m); cbn [andb fst snd garbage_];
    try destruct (Z.ltb_spec (m - 1) ge);
    repeat split; intros; try reflexivity; try lia.
Qed.

Lemma collect_returns_epoch_lag_witness :
  fst (Header.garbage_collect Scenario.stale_front_state)
  = global_epoch_ Scenario.stale_front_state
    - (min_quiesced_epoch (readers_ Scenario.stale_front_state) - 1).
Proof.
  refine (proj1 (proj1 (proj2 (collect_returns_epoch_lag
                                 Scenario.stale_front_state _)) _)).
  - wf_by_eval.
  - vm_compute. split; reflexivity.
Defined.

(** ** The queue stays in retirement order *)

Lemma nondecreasing_suffix (d l : list Epoch) :
  nondecreasing (d ++ l) -> nondecreasing l.
Proof.
  unfold nondecreasing. induction d as [|x d IH]; simpl; [tauto|].
  intros H. apply IH. now inversion H.
Qed.

Lemma nondecreasing_snoc (l : list Epoch) (y : Epoch) :
  nondecreasing l -> Forall (fun x => x <= y) l -> nondecreasing (l ++ [y]).
Proof.
  unfold nondecreasing. induction l as [|x l IH]; simpl; intros Hs Hall.
  - repeat constructor.
  - inversion Hs as [|? ? Hs' Hhd]; subst.
    inversion Hall as [|? ? Hx Hall']; subst.
    constructor; [now apply IH|].
    destruct l as [|z l]; simpl; constructor.
    + exact Hx.
    + now inversion Hhd.
Qed.

Lemma tags_app (g1 g2 : list Trash) : tags (g1 ++ g2) = tags g1 ++ tags g2.
Proof. apply map_app. Qed.

Lemma wrap64_succ (e : Epoch) :
  0 <= e < EPOCH_MAX -> wrap64 (e + 1) = e + 1.
Proof.
  unfold wrap64, EPOCH_MAX. intros H. apply Z.mod_small. lia.
Qed.

Lemma collects_cons (o : Op) (tr : list Op) :
  collects (o :: tr)
  = (match o with OpGarbageCollect => 1 | _ => 0 end) + collects tr.
Proof.
  unfold collects. destruct o; simpl filter; try reflexivity.
  cbn [length]. lia.
Qed.

Lemma collects_nonneg (tr : list Op) : 0 <= collects tr.
Proof. unfold collects. lia. Qed.

Lemma Header_collect_epoch (s : Qsbr) :
  global_epoch_ (snd (Header.garbage_collect s))
  = wrap64 (global_epoch_ s + 1).
Proof.
  unfold Header.garbage_collect. now destruct ((0 <? _) && _).
Qed.

Lemma Readme_collect_epoch (s : Qsbr) :
  global_epoch_ (snd (Readme.garbage_collect s))
  = wrap64 (global_epoch_ s + 1).
Proof.
  unfold Readme.garbage_collect. now destruct ((Readme.kMagic <? _) && _).
Qed.

(** [garbage_collect] removes entries from the front only. *)
Lemma Header_collect_suffix (s : Qsbr) :
  exists d, garbage_ s = d ++ garbage_ (snd (Header.garbage_collect s)).
Proof.
  exists (Header.destroyed_by_collect s). apply Header_destroyed_split.
Qed.

Lemma Readme_collect_suffix (s : Qsbr) :
  exists d, garbage_ s = d ++ garbage_ (snd (Readme.garbage_collect s)).
Proof.
  exists (Readme.destroyed_by_collect s). apply Readme_destroyed_split.
Qed.

Section Invariant.

Variable collect : Qsbr -> Z * Qsbr.
Hypothesis collect_readers :
  forall s, readers_ (snd (collect s)) = readers_ s.
Hypothesis collect_epoch :
  forall s, global_epoch_ (snd (collect s)) = wrap64 (global_epoch_ s + 1).
Hypothesis collect_suffix :
  forall s, exists d, garbage_ s = d ++ garbage_ (snd (collect s)).

(** Every operation keeps [Inv]; [garbage_collect] does as long as the
    increment does not wrap. *)
Lemma Inv_step (s : Qsbr) (o : Op) :
  Inv s ->
  (o = OpGarbageCollect -> global_epoch_ s < EPOCH_MAX) ->
  Inv (step collect s o).
Proof.
  intros (He & Hr & Hg & Hs) Hno. unfold is_epoch in He.
  destruct o as [|h|h|p|]; simpl.
  - (* create_reader *)
    repeat split; simpl; try assumption; try lia.
    constructor; [simpl; lia|exact Hr].
  - (* on_quiesce *)
    repeat split; simpl; try assumption; try lia.
    apply Forall_map. eapply Forall_impl; [|exact Hr].
    intros r Hb. simpl in Hb. destruct (Nat.eqb (addr r) h); simpl; lia.
  - (* release *)
    repeat split; simpl; try assumption; try lia.
    apply Forall_forall. intros r Hin. apply filter_In in Hin as [Hin _].
    rewrite Forall_forall in Hr. now apply Hr.
  - (* destroy_later *)
    repeat split; simpl; try assumption; try lia.
    + apply Forall_app. split; [exact Hg|]. constructor; [simpl; lia|constructor].
    + rewrite tags_app. simpl. apply nondecreasing_snoc; [exact Hs|].
      unfold tags. apply Forall_map. eapply Forall_impl; [|exact Hg].
      simpl. intros t Ht. lia.
  - (* garbage_collect *)
    specialize (Hno eq_refl).
    destruct (collect_suffix s) as [d Hd].
    unfold Inv, is_epoch.
    rewrite collect_readers, collect_epoch, wrap64_succ by lia.
    repeat split; try lia.
    + eapply Forall_impl; [|exact Hr]. simpl. intros r Hb. lia.
    + rewrite Hd in Hg. apply Forall_app in Hg as [_ Hg].
      eapply Forall_impl; [|exact Hg]. simpl. intros t Hb. lia.
    + rewrite Hd, tags_app in Hs. now apply nondecreasing_suffix in Hs.
Qed.

(** Along a run that calls [garbage_collect] few enough times for the
    counter not to wrap, the counter counts the calls and [Inv] holds. *)
Lemma Inv_run (tr : list Op) (s : Qsbr) :
  Inv s ->
  global_epoch_ s + collects tr <= EPOCH_MAX ->
  Inv (run collect s tr) /\
  global_epoch_ (run collect s tr) = global_epoch_ s + collects tr.
Proof.
  revert s. induction tr as [|o tr IH]; intros s HI Hb.
  - simpl. split; [exact HI|]. unfold collects. simpl. lia.
  - rewrite collects_cons in Hb |- *.
    pose proof (collects_nonneg tr) as Hn.
    assert (HI' : Inv (step collect s o)).
    { apply Inv_step; [exact HI|]. intros ->. lia. }
    assert (He : global_epoch_ (step collect s o)
                 = global_epoch_ s
                   + match o with OpGarbageCollect => 1 | _ => 0 end).
    { destruct HI as ([H0 _] & _).
      destruct o; simpl; try lia.
      rewrite collect_epoch, wrap64_succ; lia. }
    destruct (IH (step collect s o) HI') as [IH1 IH2]; [lia|].
    simpl. split; [exact IH1|]. rewrite IH2, He. lia.
Qed.

End Invariant.

Lemma Inv_Header_init : Inv Header.init.
Proof.
  unfold Inv, Header.init, is_epoch, EPOCH_MAX. simpl.
  repeat split; try lia; constructor.
Qed.

Lemma Inv_Readme_init : Inv Readme.init.
Proof.
  unfold Inv, Readme.init, is_epoch, EPOCH_MAX. simpl.
  repeat split; try lia; constructor.
Qed.

(** Without a reader every collection only advances the counter. *)
Lemma run_collects_no_reader (n : nat) (s : Qsbr) :
  readers_ s = [] -> is_epoch (global_epoch_ s) ->
  run Header.garbage_collect s (repeat OpGarbageCollect n)
  = mkQsbr (wrap64 (global_epoch_ s + Z.of_nat n)) [] (garbage_ s).
Proof.
  revert s. induction n as [|n IH]; intros s Hr He.
  - simpl. rewrite Z.add_0_r. unfold wrap64.
    rewrite Z.mod_small by (unfold is_epoch, EPOCH_MAX in He; lia).
    destruct s; simpl in *; now subst.
  - cbn [repeat run fold_left step].
    change (fold_left (step Header.garbage_collect) (repeat OpGarbageCollect n)
              (snd (Header.garbage_collect s)))
      with (run Header.garbage_collect (snd (Header.garbage_collect s))
              (repeat OpGarbageCollect n)).
    destruct (no_reader_never_collects s Hr He) as [Hg _].
    rewrite IH.
    + rewrite Header_collect_epoch, Hg. f_equal.
      unfold wrap64. rewrite Zplus_mod_idemp_l. f_equal. lia.
    + now rewrite Header_collect_readers.
    + rewrite Header_collect_epoch. unfold is_epoch, wrap64, EPOCH_MAX.
      pose proof (Z.mod_pos_bound (global_epoch_ s + 1) (2 ^ 64)). lia.
Qed.

Lemma run_app (collect : Qsbr -> Z * Qsbr) (s : Qsbr) (t1 t2 : list Op) :
  run collect s (t1 ++ t2) = run collect (run collect s t1) t2.
Proof. unfold run. apply fold_left_app. Qed.

(** C8 as stated fails once the counter wraps: after [EPOCH_MAX] collections
    the writer retires [A] (tagged [EPOCH_MAX]), collects (the counter
    becomes 0) and retires [B] (tagged 0); with no reader nothing was
    trimmed, and the queue reads [EPOCH_MAX; 0]. *)
Lemma queue_order_lost_on_wrap :
  tags (garbage_ (run Header.garbage_collect Header.init Scenario.wrap_around))
  = [EPOCH_MAX; 0] /\
  ~ nondecreasing
      (tags (garbage_ (run Header.garbage_collect Header.init
                         Scenario.wrap_around))).
Proof.
  assert (E : run Header.garbage_collect Header.init Scenario.wrap_around
              = mkQsbr 0 [] [mkTrash EPOCH_MAX Scenario.A;
                              mkTrash 0 Scenario.B]).
  { unfold Scenario.wrap_around. rewrite run_app.
    rewrite run_collects_no_reader;
      [|reflexivity|unfold is_epoch, EPOCH_MAX; simpl; lia].
    rewrite Z2Nat.id by (unfold EPOCH_MAX; lia).
    reflexivity. }
  rewrite E. split; [reflexivity|].
  unfold nondecreasing. simpl. intros H.
  inversion H as [|? ? _ Hhd]; subst.
  inversion Hhd as [|? ? Hle]; subst.
  unfold EPOCH_MAX in Hle. lia.
Qed.

(** C8, amended.  In every state reached from the initial one by a sequence
    of operations with at most [2^64 - 1] calls of [garbage_collect] (the
    epoch counter, which counts them, has not wrapped), the tags of the
    queue are non-decreasing from front to back; [destroy_later] appends one
    entry tagged with the current epoch at the back, and [garbage_collect]
    removes entries from the front only. *)
Theorem queue_in_retirement_order (tr : list Op) :
  collects tr <= EPOCH_MAX ->
  nondecreasing
    (tags (garbage_ (run Header.garbage_collect Header.init tr))) /\
  global_epoch_ (run Header.garbage_collect Header.init tr) = collects tr /\
  (forall p s, garbage_ (destroy_later p s)
               = garbage_ s ++ [mkTrash (global_epoch_ s) p]) /\
  (forall s, exists d,
      garbage_ s = d ++ garbage_ (snd (Header.garbage_collect s))).
Proof.
  intros Hb.
  destruct (Inv_run Header.garbage_collect Header_collect_readers
              Header_collect_epoch Header_collect_suffix tr Header.init
              Inv_Header_init) as [(_ & _ & _ & Hs) He].
  { simpl. exact Hb. }
  repeat split.
  - exact Hs.
  - exact He.
  - apply Header_collect_suffix.
Qed.

Lemma queue_in_retirement_order_witness :
  nondecreasing
    (tags (garbage_ (run Header.garbage_collect Header.init
                       (Scenario.stale_front ++ [OpDestroyLater Scenario.A])))).
Proof.
  refine (proj1 (queue_in_retirement_order
                   (Scenario.stale_front ++ [OpDestroyLater Scenario.A]) _)).
  vm_compute. discriminate.
Defined.

(** The second listing keeps the same order, from its initial epoch 1. *)
Lemma queue_in_retirement_order_readme (tr : list Op) :
  1 + collects tr <= EPOCH_MAX ->
  nondecreasing
    (tags (garbage_ (run Readme.garbage_collect Readme.init tr))).
Proof.
  intros Hb.
  destruct (Inv_run Readme.garbage_collect Readme_collect_readers
              Readme_collect_epoch Readme_collect_suffix tr Readme.init
              Inv_Readme_init) as [(_ & _ & _ & Hs) _]; [exact Hb|exact Hs].
Qed.

(** ** The assertion of the second listing *)

Lemma documented_min_le_global (s : Qsbr) :
  Inv s -> readers_ s <> [] ->
  documented_min_epoch (readers_ s) <= global_epoch_ s.
Proof.
  intros (_ & Hr & _) Hne.
  destruct (readers_ s) as [|r rs] eqn:E; [congruence|].
  pose proof (documented_min_le (r :: rs) r (or_introl eq_refl)) as Hle.
  inversion Hr as [|? ? Hb _]; subst. unfold current_epoch in Hle. lia.
Qed.

(** With a second reader behind the front one, the value computed is not
    ahead of the counter either. *)
Lemma min_quiesced_le_global (s : Qsbr) :
  Inv s -> tl (readers_ s) <> [] ->
  min_quiesced_epoch (readers_ s) <= global_epoch_ s.
Proof.
  intros (_ & Hr & _) Hne.
  destruct (readers_ s) as [|r0 [|r rs]] eqn:E; simpl in Hne; try congruence.
  pose proof (min_quiesced_epoch_le_tail (r0 :: r :: rs) r
                (or_introl eq_refl)) as Hle.
  inversion Hr as [|? ? _ Hr']; subst.
  inversion Hr' as [|? ? Hb _]; subst. unfold current_epoch in Hle. lia.
Qed.

(** Before the counter wraps the [assert] never fails: the value computed is
    the sentinel or the epoch of a registered reader. *)
Lemma assert_holds (s : Qsbr) :
  Inv s ->
  Readme.assert_cond (min_quiesced_epoch (readers_ s)) (global_epoch_ s)
  = true.
Proof.
  intros HI. unfold Readme.assert_cond. apply orb_true_iff.
  destruct (readers_ s) as [|r0 [|r rs]] eqn:E.
  - left. now apply Z.eqb_eq.
  - left. now apply Z.eqb_eq.
  - right. apply Z.leb_le. rewrite <- E. apply min_quiesced_le_global.
    + exact HI.
    + rewrite E. discriminate.
Qed.

Lemma checked_collect_agrees (s : Qsbr) :
  Inv s ->
  Readme.garbage_collect_checked s = Some (Readme.garbage_collect s).
Proof.
  intros HI. unfold Readme.garbage_collect_checked, Readme.garbage_collect.
  rewrite (assert_holds s HI).
  now destruct ((Readme.kMagic <? _) && _).
Qed.

(** * Further properties of the reclamation class *)

(** ** Releasing a handle *)

Lemma filter_all_kept {A : Type} (p : A -> bool) (l : list A) :
  (forall x, In x l -> p x = true) -> filter p l = l.
Proof.
  induction l as [|x l IH]; simpl; intros H; [reflexivity|].
  rewrite (H x (or_introl eq_refl)). f_equal. apply IH.
  intros y Hy. apply H. now right.
Qed.

(** Registering a reader and releasing its handle at once leaves the object
    as it was: the deleter removes the node [create_reader] put at the front
    and no other. *)
Theorem release_undoes_create (s : Qsbr) :
  release_reader (fst (create_reader s)) (snd (create_reader s)) = s.
Proof.
  unfold release_reader, create_reader.
  cbn [fst snd global_epoch_ readers_ garbage_ filter Reader_ctor on_quiesce
       addr].
  rewrite Nat.eqb_refl. cbn [negb].
  rewrite filter_all_kept.
  - now destruct s.
  - intros r Hr. apply negb_true_iff, Nat.eqb_neq.
    now apply fresh_addr_new.
Qed.



(** ** The epoch counter *)

Lemma wrap64_is_epoch (z : Z) : is_epoch (wrap64 z).
Proof.
  unfold is_epoch, wrap64, EPOCH_MAX.
  pose proof (Z.mod_pos_bound z (2 ^ 64)). lia.
Qed.

Lemma wrap64_small (e : Epoch) : is_epoch e -> wrap64 e = e.
Proof.
  unfold is_epoch, wrap64, EPOCH_MAX. intros H. apply Z.mod_small. lia.
Qed.

Section Counter.

Variable collect : Qsbr -> Z * Qsbr.
Hypothesis collect_epoch :
  forall s, global_epoch_ (snd (collect s)) = wrap64 (global_epoch_ s + 1).

Lemma step_epoch (s : Qsbr) (o : Op) :
  global_epoch_ (step collect s o)
  = match o with
    | OpGarbageCollect => wrap64 (global_epoch_ s + 1)
    | _ => global_epoch_ s
    end.
Proof. destruct o; simpl; try reflexivity. apply collect_epoch. Qed.

Lemma run_epoch (tr : list Op) (s : Qsbr) :
  is_epoch (global_epoch_ s) ->
  global_epoch_ (run collect s tr) = wrap64 (global_epoch_ s + collects tr).
Proof.
  revert s. induction tr as [|o tr IH]; intros s He.
  - simpl. unfold collects. simpl. rewrite Z.add_0_r.
    symmetry. now apply wrap64_small.
  - cbn [run fold_left].
    change (fold_left (step collect) tr (step collect s o))
      with (run collect (step collect s o) tr).
    rewrite IH, collects_cons, step_epoch.
    + destruct o; try (f_equal; lia).
      unfold wrap64. rewrite Zplus_mod_idemp_l. f_equal. lia.
    + rewrite step_epoch. destruct o; try exact He. apply wrap64_is_epoch.
Qed.

End Counter.

(** The epoch counter is moved by [garbage_collect] and by nothing else:
    after any sequence of operations it holds the initial value plus the
    number of [garbage_collect] calls, modulo [2^64].  In the second
    listing that is what [generation()] returns. *)
Theorem counter_counts_collections (tr : list Op) :
  global_epoch_ (run Header.garbage_collect Header.init tr)
  = wrap64 (collects tr) /\
  Readme.generation (run Readme.garbage_collect Readme.init tr)
  = wrap64 (1 + collects tr).
Proof.
  split.
  - rewrite (run_epoch Header.garbage_collect Header_collect_epoch).
    + reflexivity.
    + unfold is_epoch, EPOCH_MAX. simpl. lia.
  - unfold Readme.generation.
    rewrite (run_epoch Readme.garbage_collect Readme_collect_epoch).
    + reflexivity.
    + unfold is_epoch, EPOCH_MAX. simpl. lia.
Qed.

(** ** Every retired object is accounted for *)

Section LedgerBalance.

Variable collect : Qsbr -> Z * Qsbr.
Variable destroyed_by : Qsbr -> list Trash.
Hypothesis collect_split :
  forall s, garbage_ s = destroyed_by s ++ garbage_ (snd (collect s)).

Lemma ledger_balance (tr : list Op) (s : Qsbr) :
  map item (garbage_ s) ++ retired tr
  = map item (destroyed_along collect destroyed_by s tr
              ++ garbage_ (run collect s tr)).
Proof.
  revert s. induction tr as [|o tr IH]; intros s.
  - simpl. now rewrite app_nil_r.
  - cbn [destroyed_along run fold_left].
    change (fold_left (step collect) tr (step collect s o))
      with (run collect (step collect s o) tr).
    rewrite <- app_assoc, map_app, <- IH.
    destruct o as [|h|h|p|]; cbn [retired step app map]; try reflexivity.
    + (* destroy_later *)
      unfold destroy_later. cbn [garbage_].
      rewrite map_app, <- app_assoc. reflexivity.
    + (* garbage_collect *)
      rewrite (collect_split s) at 1. rewrite map_app, <- app_assoc.
      reflexivity.
Qed.

End LedgerBalance.

(** Along any sequence of operations from a fresh instance, the objects
    destroyed so far followed by the objects still queued are exactly the
    objects handed to [destroy_later], in the order of the calls: nothing is
    lost, nothing is destroyed twice, and destruction follows retirement
    order.  In both listings. *)
Theorem retired_objects_accounted_for (tr : list Op) :
  map item (destroyed_along Header.garbage_collect Header.destroyed_by_collect
              Header.init tr
            ++ garbage_ (run Header.garbage_collect Header.init tr))
  = retired tr /\
  (length (destroyed_along Header.garbage_collect Header.destroyed_by_collect
             Header.init tr)
   + pending_garbage (run Header.garbage_collect Header.init tr)
   = length (retired tr))%nat /\
  map item (destroyed_along Readme.garbage_collect Readme.destroyed_by_collect
              Readme.init tr
            ++ garbage_ (run Readme.garbage_collect Readme.init tr))
  = retired tr /\
  (length (destroyed_along Readme.garbage_collect Readme.destroyed_by_collect
             Readme.init tr)
   + pending_garbage (run Readme.garbage_collect Readme.init tr)
   = length (retired tr))%nat.
Proof.
  pose proof (ledger_balance Header.garbage_collect
                Header.destroyed_by_collect
                (fun s => Header_destroyed_split _ s) tr Header.init) as HH.
  pose proof (ledger_balance Readme.garbage_collect
                Readme.destroyed_by_collect
                (fun s => Readme_destroyed_split _ s) tr Readme.init) as HR.
  simpl in HH, HR.
  repeat split.
  - now symmetry.
  - rewrite HH. unfold pending_garbage.
    now rewrite length_map, length_app.
  - now symmetry.
  - rewrite HR. unfold pending_garbage.
    now rewrite length_map, length_app.
Qed.

(** ** What a collection never frees *)

(** A call of [garbage_collect] never destroys an entry retired less than
    two generations before the epoch of a reader behind the front of the
    registry ([kMagic + 1] generations in the second listing): for such a
    reader [r] and a destroyed entry [t], [epoch t + 1 < current_epoch r]
    (resp. [epoch t + kMagic < current_epoch r]). *)
Theorem collect_spares_recent_entries (s : Qsbr) (t : Trash) (r : Reader) :
  In r (tl (readers_ s)) ->
  (In t (Header.destroyed_by_collect s) -> epoch t + 1 < current_epoch r) /\
  (In t (Readme.destroyed_by_collect s) ->
   epoch t + Readme.kMagic < current_epoch r).
Proof.
  intros Hr. pose proof (min_quiesced_epoch_le_tail _ _ Hr) as Hm.
  split; intros Ht.
  - apply Header_destroyed_older in Ht. lia.
  - apply Readme_destroyed_older in Ht. lia.
Qed.

Lemma collect_spares_recent_entries_witness :
  epoch (mkTrash 1 Scenario.B) + 1 < current_epoch (mkReader Scenario.r1 3).
Proof.
  refine (proj1 (collect_spares_recent_entries Scenario.stale_front_state
                   (mkTrash 1 Scenario.B) (mkReader Scenario.r1 3) _) _).
  - vm_compute. left. reflexivity.
  - vm_compute. left. reflexivity.
Defined.

(** ** Stored epochs and the assertion, before the counter wraps *)

(** As long as the counter has not wrapped, no registered reader holds an
    epoch ahead of the counter and no queued entry is tagged ahead of it:
    every stored epoch is a value the counter has held.  In both
    listings. *)
Theorem stored_epochs_not_ahead (tr : list Op) :
  1 + collects tr <= EPOCH_MAX ->
  (Forall (fun r => 0 <= current_epoch r
                    <= global_epoch_ (run Header.garbage_collect
                                        Header.init tr))
          (readers_ (run Header.garbage_collect Header.init tr)) /\
   Forall (fun t => 0 <= epoch t
                    <= global_epoch_ (run Header.garbage_collect
                                        Header.init tr))
          (garbage_ (run Header.garbage_collect Header.init tr))) /\
  (Forall (fun r => 0 <= current_epoch r
                    <= global_epoch_ (run Readme.garbage_collect
                                        Readme.init tr))
          (readers_ (run Readme.garbage_collect Readme.init tr)) /\
   Forall (fun t => 0 <= epoch t
                    <= global_epoch_ (run Readme.garbage_collect
                                        Readme.init tr))
          (garbage_ (run Readme.garbage_collect Readme.init tr))).
Proof.
  intros Hb.
  destruct (Inv_run Header.garbage_collect Header_collect_readers
              Header_collect_epoch Header_collect_suffix tr Header.init
              Inv_Header_init) as [(_ & Hr & Hg & _) _];
    [change (0 + collects tr <= EPOCH_MAX); lia|].
  destruct (Inv_run Readme.garbage_collect Readme_collect_readers
              Readme_collect_epoch Readme_collect_suffix tr Readme.init
              Inv_Readme_init) as [(_ & Hr' & Hg' & _) _]; [exact Hb|].
  repeat split; assumption.
Qed.

Lemma stored_epochs_not_ahead_witness :
  Forall (fun t => 0 <= epoch t
                   <= global_epoch_ (run Header.garbage_collect
                                       Header.init Scenario.stale_front))
         (garbage_ (run Header.garbage_collect Header.init
                      Scenario.stale_front)).
Proof.
  refine (proj2 (proj1 (stored_epochs_not_ahead Scenario.stale_front _))).
  vm_compute. discriminate.
Defined.

Lemma run_checked_agrees (tr : list Op) (s : Qsbr) :
  Inv s -> global_epoch_ s + collects tr <= EPOCH_MAX ->
  run_checked s tr = Some (run Readme.garbage_collect s tr).
Proof.
  revert s. induction tr as [|o tr IH]; intros s HI Hb; [reflexivity|].
  rewrite collects_cons in Hb. pose proof (collects_nonneg tr) as Hn.
  assert (HI' : Inv (step Readme.garbage_collect s o)).
  { apply (Inv_step Readme.garbage_collect Readme_collect_readers
             Readme_collect_epoch Readme_collect_suffix); [exact HI|].
    intros ->. lia. }
  assert (He : global_epoch_ (step Readme.garbage_collect s o)
               + collects tr <= EPOCH_MAX).
  { rewrite (step_epoch Readme.garbage_collect Readme_collect_epoch).
    destruct HI as ([H0 _] & _).
    destruct o; try lia. rewrite wrap64_succ; lia. }
  destruct o; cbn [run_checked run fold_left];
    try (apply IH; assumption).
  rewrite (checked_collect_agrees s HI).
  destruct (Readme.garbage_collect s) as [ret s'] eqn:E.
  assert (Es : s' = step Readme.garbage_collect s OpGarbageCollect)
    by (simpl; now rewrite E).
  rewrite Es. now apply IH.
Qed.

(** In the second listing the [assert] of [garbage_collect] cannot fail
    before the counter wraps: a run with the assertion compiled in goes
    through and reaches the state the run without the assertion reaches. *)
Theorem assert_never_fails_before_wrap (tr : list Op) :
  1 + collects tr <= EPOCH_MAX ->
  run_checked Readme.init tr
  = Some (run Readme.garbage_collect Readme.init tr).
Proof.
  intros Hb. apply run_checked_agrees; [apply Inv_Readme_init|exact Hb].
Qed.

Lemma assert_never_fails_before_wrap_witness :
  run_checked Readme.init Scenario.stale_front_readme
  = Some (run Readme.garbage_collect Readme.init Scenario.stale_front_readme).
Proof.
  apply (assert_never_fails_before_wrap Scenario.stale_front_readme).
  vm_compute. discriminate.
Defined.

(** ** Collections and the progress of readers *)

Lemma popped_none (bound : Epoch) (g : list Trash) :
  Forall (fun t => bound <= epoch t) g ->
  popped bound g = [] /\ pop_front_loop bound g = g.
Proof.
  intros H. destruct g as [|t g]; [now split|].
  inversion H as [|? ? Ht _]; subst. simpl.
  destruct (Z.ltb_spec (epoch t) bound); [lia|now split].
Qed.

Lemma pop_front_loop_all (bound : Epoch) (g : list Trash) :
  Forall (fun t => epoch t < bound) g -> pop_front_loop bound g = [].
Proof.
  induction g as [|t g IH]; intros H; [reflexivity|].
  inversion H as [|? ? Ht Hg]; subst. simpl.
  destruct (Z.ltb_spec (epoch t) bound); [now apply IH|lia].
Qed.

(** The invariant of a writer-only run that follows a collection whose loop
    ran with the minimum [m]: the registry is as it was, nothing queued is
    tagged below the bound [m - 1], and the counter is past [m]. *)
Lemma writer_only_invariant (m : Epoch) (rs : list Reader) (tr : list Op)
      (s : Qsbr) :
  readers_ s = rs -> min_quiesced_epoch rs = m ->
  Forall (fun t => m - 1 <= epoch t) (garbage_ s) ->
  0 <= m <= global_epoch_ s ->
  global_epoch_ s + collects tr <= EPOCH_MAX ->
  forallb is_writer_op tr = true ->
  destroyed_along Header.garbage_collect Header.destroyed_by_collect s tr = [].
Proof.
  revert s. induction tr as [|o tr IH]; intros s Hr Hm Hg Hb Hc Hw;
    [reflexivity|].
  rewrite collects_cons in Hc. pose proof (collects_nonneg tr) as Hn.
  cbn [forallb] in Hw. apply andb_true_iff in Hw as [Ho Hw].
  destruct o as [|h|h|p|]; try discriminate; cbn [destroyed_along app].
  - (* destroy_later *)
    apply IH; try assumption; cbn [step destroy_later readers_ garbage_
                                     global_epoch_]; try lia.
    apply Forall_app. split; [exact Hg|].
    constructor; [simpl; lia|constructor].
  - (* garbage_collect *)
    assert (Hd : Header.destroyed_by_collect s = []).
    { unfold Header.destroyed_by_collect, Header.destroyed_from.
      rewrite Hr, Hm. destruct (_ && _); [|reflexivity].
      now apply popped_none. }
    rewrite Hd. cbn [app].
    apply IH; try assumption.
    + cbn [step]. now rewrite Header_collect_readers.
    + cbn [step].
      pose proof (Header_destroyed_split (min_quiesced_epoch (readers_ s)) s)
        as Hs.
      fold (Header.destroyed_by_collect s) in Hs.
      rewrite <- Header_collect_from_min, Hd in Hs. cbn [app] in Hs.
      now rewrite <- Hs.
    + cbn [step]. rewrite Header_collect_epoch, wrap64_succ; lia.
    + cbn [step]. rewrite Header_collect_epoch, wrap64_succ; lia.
Qed.

(** Once a call of [garbage_collect] has run its loop, the writer alone
    frees nothing more: through any further [destroy_later] and
    [garbage_collect] calls, as long as no reader quiesces, registers or
    leaves and the counter does not wrap, no entry is destroyed. *)
Theorem writer_alone_frees_nothing_more (s : Qsbr) (tr : list Op) :
  Inv s ->
  0 < min_quiesced_epoch (readers_ s) < global_epoch_ s ->
  forallb is_writer_op tr = true ->
  global_epoch_ s + 1 + collects tr <= EPOCH_MAX ->
  destroyed_along Header.garbage_collect Header.destroyed_by_collect
    (snd (Header.garbage_collect s)) tr = [].
Proof.
  intros (He & _ & _ & Hs) Hm Hw Hb. unfold is_epoch in He.
  pose proof (collects_nonneg tr) as Hn.
  apply (writer_only_invariant (min_quiesced_epoch (readers_ s))
           (readers_ s)); try assumption.
  - apply Header_collect_readers.
  - reflexivity.
  - unfold Header.garbage_collect.
    destruct (Z.ltb_spec 0 (min_quiesced_epoch (readers_ s))); [|lia].
    destruct (Z.ltb_spec (min_quiesced_epoch (readers_ s)) (global_epoch_ s));
      [|lia].
    cbn [andb snd garbage_]. now apply pop_front_loop_rest.
  - rewrite Header_collect_epoch, wrap64_succ; lia.
  - rewrite Header_collect_epoch, wrap64_succ; lia.
Qed.

Lemma writer_alone_frees_nothing_more_witness :
  destroyed_along Header.garbage_collect Header.destroyed_by_collect
    (snd (Header.garbage_collect Scenario.stale_front_state))
    [OpDestroyLater Scenario.A; OpGarbageCollect; OpGarbageCollect] = [].
Proof.
  apply (writer_alone_frees_nothing_more Scenario.stale_front_state
           [OpDestroyLater Scenario.A; OpGarbageCollect; OpGarbageCollect]).
  - apply (Inv_run Header.garbage_collect Header_collect_readers
             Header_collect_epoch Header_collect_suffix Scenario.stale_front
             Header.init Inv_Header_init).
    vm_compute. discriminate.
  - vm_compute. split; reflexivity.
  - reflexivity.
  - vm_compute. discriminate.
Defined.

(** What a run of [on_quiesce()] calls over a list of handles does. *)
Lemma run_on_quiesce_handles (collect : Qsbr -> Z * Qsbr) (hs : list Ptr)
      (s : Qsbr) :
  run collect s (map OpOnQuiesce hs)
  = mkQsbr (global_epoch_ s)
           (map (fun r => if existsb (Nat.eqb (addr r)) hs
                          then on_quiesce (global_epoch_ s) r else r)
                (readers_ s))
           (garbage_ s).
Proof.
  revert s. induction hs as [|h hs IH]; intros s.
  - simpl. destruct s as [g rs q]. simpl. f_equal.
    rewrite <- (map_id rs) at 1. reflexivity.
  - cbn [map run fold_left].
    change (fold_left (step collect) (map OpOnQuiesce hs)
              (step collect s (OpOnQuiesce h)))
      with (run collect (step collect s (OpOnQuiesce h)) (map OpOnQuiesce hs)).
    rewrite IH. cbn [step handle_on_quiesce global_epoch_ readers_ garbage_].
    f_equal. rewrite map_map. apply map_ext. intros r.
    cbn beta. cbn [existsb].
    destruct (Nat.eqb (addr r) h) eqn:E; cbn [orb on_quiesce addr].
    + now destruct (existsb (Nat.eqb (addr r)) hs).
    + reflexivity.
Qed.

Lemma run_quiesce_all (collect : Qsbr -> Z * Qsbr) (s : Qsbr) :
  run collect s (quiesce_all (readers_ s))
  = mkQsbr (global_epoch_ s) (map (on_quiesce (global_epoch_ s)) (readers_ s))
           (garbage_ s).
Proof.
  unfold quiesce_all. rewrite <- (map_map addr OpOnQuiesce).
  rewrite run_on_quiesce_handles. f_equal.
  apply map_ext_in. intros r Hr.
  assert (E : existsb (Nat.eqb (addr r)) (map addr (readers_ s)) = true).
  { apply existsb_exists. exists (addr r). split.
    - now apply in_map.
    - apply Nat.eqb_refl. }
  now rewrite E.
Qed.

Lemma fold_min_constant (l : list Reader) (g m : Z) :
  Forall (fun r => current_epoch r = g) l -> l <> [] -> g <= m ->
  fold_left (fun min e => Z.min min (current_epoch e)) l m = g.
Proof.
  revert m. induction l as [|x l IH]; intros m Hall Hne Hle; [congruence|].
  inversion Hall as [|? ? Hx Hl]; subst. simpl.
  rewrite (Z.min_r m (current_epoch x)) by lia.
  destruct l as [|y l]; [reflexivity|].
  apply IH; [exact Hl|discriminate|lia].
Qed.

Lemma min_quiesced_epoch_all_at (g : Epoch) (rs : list Reader) :
  tl rs <> [] -> g <= EPOCH_MAX ->
  min_quiesced_epoch (map (on_quiesce g) rs) = g.
Proof.
  intros Hne Hle. unfold min_quiesced_epoch.
  destruct rs as [|r0 rs]; [simpl in Hne; congruence|].
  cbn [map tl] in *. apply fold_min_constant; [|now destruct rs|exact Hle].
  apply Forall_map, Forall_forall. now intros r _.
Qed.

(** With at least two readers registered, the queue drains: the writer
    collects twice, every reader then calls [on_quiesce()], and the writer
    collects twice more; nothing that was queued at the start is left.
    (The counter is assumed not to wrap during these four collections.) *)
Theorem queue_drains_after_quiesce (s : Qsbr) :
  Inv s ->
  tl (readers_ s) <> [] ->
  global_epoch_ s + 4 <= EPOCH_MAX ->
  garbage_ (run Header.garbage_collect s
              ([OpGarbageCollect; OpGarbageCollect]
               ++ quiesce_all (readers_ s)
               ++ [OpGarbageCollect; OpGarbageCollect])) = [].
Proof.
  intros HI Hne Hb.
  pose proof HI as ([H0 _] & _ & Hg & _).
  set (e := global_epoch_ s) in *.
  (* two collections *)
  rewrite run_app.
  set (s2 := run Header.garbage_collect s [OpGarbageCollect; OpGarbageCollect]).
  assert (Hr2 : readers_ s2 = readers_ s).
  { unfold s2. cbn [run fold_left step].
    now rewrite !Header_collect_readers. }
  assert (He2 : global_epoch_ s2 = e + 2).
  { unfold s2. cbn [run fold_left step].
    rewrite !Header_collect_epoch.
    fold e. rewrite (wrap64_succ e) by lia.
    rewrite wrap64_succ by lia. lia. }
  assert (Hg2 : Forall (fun t => epoch t <= e) (garbage_ s2)).
  { unfold s2. cbn [run fold_left step].
    destruct (Header_collect_suffix s) as [d1 Hd1].
    destruct (Header_collect_suffix (snd (Header.garbage_collect s)))
      as [d2 Hd2].
    rewrite Hd1, Hd2 in Hg.
    apply Forall_app in Hg as [_ Hg]. apply Forall_app in Hg as [_ Hg].
    eapply Forall_impl; [|exact Hg]. simpl. intros t Ht. lia. }
  (* every reader quiesces *)
  rewrite run_app, <- Hr2, run_quiesce_all, Hr2, He2.
  (* third collection: the minimum equals the counter, the loop does not run *)
  cbn [run fold_left step].
  assert (Hm : min_quiesced_epoch (map (on_quiesce (e + 2)) (readers_ s))
               = e + 2)
    by (apply min_quiesced_epoch_all_at; [exact Hne|lia]).
  unfold Header.garbage_collect at 2.
  cbn [readers_ global_epoch_ garbage_]. rewrite Hm.
  rewrite (Z.ltb_irrefl (e + 2)), andb_false_r. cbn [snd].
  (* fourth collection: the loop runs with the bound e + 1 *)
  unfold Header.garbage_collect.
  cbn [readers_ global_epoch_ garbage_]. rewrite Hm.
  rewrite wrap64_succ by lia.
  destruct (Z.ltb_spec 0 (e + 2)); [|lia].
  destruct (Z.ltb_spec (e + 2) (e + 2 + 1)); [|lia].
  cbn [andb snd garbage_].
  apply pop_front_loop_all.
  eapply Forall_impl; [|exact Hg2]. simpl. intros t Ht. lia.
Qed.

Lemma queue_drains_after_quiesce_witness :
  garbage_ (run Header.garbage_collect Scenario.both_quiesced_state
              ([OpGarbageCollect; OpGarbageCollect]
               ++ quiesce_all (readers_ Scenario.both_quiesced_state)
               ++ [OpGarbageCollect; OpGarbageCollect])) = [].
Proof.
  apply (queue_drains_after_quiesce Scenario.both_quiesced_state).
  - apply (Inv_run Header.garbage_collect Header_collect_readers
             Header_collect_epoch Header_collect_suffix Scenario.both_quiesced
             Header.init Inv_Header_init).
    vm_compute. discriminate.
  - vm_compute. discriminate.
  - vm_compute. discriminate.
Defined.

(** ** The minimum computed over the registry *)

Lemma fold_min_swap (l : list Reader) (m : Z) (x y : Reader) :
  fold_left (fun min e => Z.min min (current_epoch e)) (x :: y :: l) m
  = fold_left (fun min e => Z.min min (current_epoch e)) (y :: x :: l) m.
Proof. simpl. f_equal. lia. Qed.

Lemma fold_min_permutation (l l' : list Reader) :
  Permutation l l' ->
  forall m,
    fold_left (fun min e => Z.min min (current_epoch e)) l m
    = fold_left (fun min e => Z.min min (current_epoch e)) l' m.
Proof.
  induction 1 as [|x l l' _ IH|x y l|l l' l'' _ IH1 _ IH2]; intros m.
  - reflexivity.
  - simpl. apply IH.
  - apply fold_min_swap.
  - now rewrite IH1.
Qed.

(** [min_quiesced_epoch] returns the least epoch among the readers behind
    the front of the registry, capped by [EPOCH_MAX]: it is below the epoch
    of each of them, it is [EPOCH_MAX] or the epoch of one of them, and it
    depends neither on the front reader nor on the order of the others. *)
Theorem min_quiesced_epoch_spec (rs rs' : list Reader) :
  Permutation (tl rs) (tl rs') ->
  (forall r, In r (tl rs) -> min_quiesced_epoch rs <= current_epoch r) /\
  min_quiesced_epoch rs <= EPOCH_MAX /\
  (min_quiesced_epoch rs = EPOCH_MAX \/
   exists r, In r (tl rs) /\ min_quiesced_epoch rs = current_epoch r) /\
  min_quiesced_epoch rs = min_quiesced_epoch rs'.
Proof.
  intros Hp. repeat split.
  - intros r. apply min_quiesced_epoch_le_tail.
  - apply fold_min_le_init.
  - apply fold_min_attained.
  - unfold min_quiesced_epoch. now apply fold_min_permutation.
Qed.

Lemma min_quiesced_epoch_spec_witness :
  min_quiesced_epoch [mkReader 3%nat 9; mkReader 2%nat 5; mkReader 1%nat 7]
  = min_quiesced_epoch [mkReader 4%nat 0; mkReader 1%nat 7; mkReader 2%nat 5].
Proof.
  refine (proj2 (proj2 (proj2 (min_quiesced_epoch_spec
    [mkReader 3%nat 9; mkReader 2%nat 5; mkReader 1%nat 7]
    [mkReader 4%nat 0; mkReader 1%nat 7; mkReader 2%nat 5] _)))).
  simpl. apply perm_swap.
Defined.

(** ** The two listings compared *)

Lemma popped_monotone (b b' : Epoch) (g : list Trash) :
  b <= b' -> exists rest, popped b' g = popped b g ++ rest.
Proof.
  intros Hb. induction g as [|t g [rest IH]]; simpl.
  - now exists [].
  - destruct (Z.ltb_spec (epoch t) b); destruct (Z.ltb_spec (epoch t) b');
      try lia.
    + exists rest. simpl. now f_equal.
    + now exists (t :: popped b' g).
    + now exists [].
Qed.

(** On the same state the listing with [kMagic] frees no more than the one
    of [qsbr.h]: what it destroys is a front part of what [qsbr.h] destroys,
    and what [qsbr.h] leaves queued is a back part of what it leaves
    queued. *)
Theorem readme_frees_no_more (s : Qsbr) :
  (exists more,
      Header.destroyed_by_collect s = Readme.destroyed_by_collect s ++ more) /\
  (exists more,
      garbage_ (snd (Readme.garbage_collect s))
      = more ++ garbage_ (snd (Header.garbage_collect s))).
Proof.
  assert (H : exists more,
             Header.destroyed_by_collect s
             = Readme.destroyed_by_collect s ++ more).
  { unfold Header.destroyed_by_collect, Readme.destroyed_by_collect,
      Header.destroyed_from, Readme.destroyed_from, Readme.kMagic.
    set (m := min_quiesced_epoch (readers_ s)).
    destruct (Z.ltb_spec 128 m); destruct (Z.ltb_spec m (global_epoch_ s));
      destruct (Z.ltb_spec 0 m); cbn [andb app]; try lia;
      try (eexists; reflexivity).
    apply popped_monotone. lia. }
  split; [exact H|].
  destruct H as [more Hmore]. exists more.
  pose proof (Header_destroyed_split (min_quiesced_epoch (readers_ s)) s)
    as HH.
  pose proof (Readme_destroyed_split (min_quiesced_epoch (readers_ s)) s)
    as HR.
  fold (Header.destroyed_by_collect s) in HH.
  fold (Readme.destroyed_by_collect s) in HR.
  rewrite <- Header_collect_from_min in HH.
  rewrite <- Readme_collect_from_min in HR.
  rewrite Hmore, <- app_assoc in HH. rewrite HR in HH at 1.
  now apply app_inv_head in HH.
Qed.

(** * Properties of the parser *)

(** ** [split_step] and [remove_prefix] *)

Lemma std_find_absent (s : string_view) (d : ascii) :
  ~ In d s -> std_find s d = length s.
Proof.
  induction s as [|c s IH]; simpl; intros H; [reflexivity|].
  destruct (Ascii.eqb_spec c d) as [->|_]; [exfalso; apply H; now left|].
  f_equal. apply IH. intros Hin. apply H. now right.
Qed.

Lemma std_find_first (r rest : string_view) (d : ascii) :
  ~ In d r -> std_find (r ++ d :: rest) d = length r.
Proof.
  induction r as [|c r IH]; simpl; intros H.
  - now rewrite Ascii.eqb_refl.
  - destruct (Ascii.eqb_spec c d) as [->|_]; [exfalso; apply H; now left|].
    f_equal. apply IH. intros Hin. apply H. now right.
Qed.

Lemma split_step_absent (s : string_view) (d : ascii) :
  ~ In d s -> split_step s d = (s, []).
Proof.
  intros H. unfold split_step. rewrite (std_find_absent s d H).
  rewrite Nat.ltb_irrefl, firstn_all, skipn_all. reflexivity.
Qed.

Lemma split_step_first (r rest : string_view) (d : ascii) :
  ~ In d r -> split_step (r ++ d :: rest) d = (r, rest).
Proof.
  intros H. unfold split_step. rewrite (std_find_first r rest d H).
  assert (Hlt : (length r <? length (r ++ d :: rest))%nat = true).
  { apply Nat.ltb_lt. rewrite length_app. simpl. lia. }
  rewrite Hlt. f_equal.
  - clear. induction r as [|c r IH]; simpl; [reflexivity|now f_equal].
  - clear. induction r as [|c r IH]; simpl; [reflexivity|exact IH].
Qed.

Lemma split_cases (s : string_view) (d : ascii) :
  ~ In d s \/ exists r rest, s = r ++ d :: rest /\ ~ In d r.
Proof.
  induction s as [|c s IH]; [left; intros []|].
  destruct (Ascii.eqb_spec c d) as [->|Hne].
  - right. exists [], s. split; [reflexivity|intros []].
  - destruct IH as [Habs|(r & rest & -> & Hr)].
    + left. intros [E|Hin]; [congruence|tauto].
    + right. exists (c :: r), rest. split; [reflexivity|].
      intros [E|Hin]; [congruence|tauto].
Qed.

(** [split_step] cuts the view at the first delimiter: the part returned
    holds no delimiter; when the view holds one, it is the part returned,
    the delimiter and the view left, and otherwise everything is returned
    and nothing is left.  Conversely, joining a delimiter-free part to the
    rest and splitting gives the two back. *)
Theorem split_step_spec (tgt r rest : string_view) (d : ascii) :
  ~ In d (fst (split_step tgt d)) /\
  (tgt = fst (split_step tgt d) ++ d :: snd (split_step tgt d) \/
   (~ In d tgt /\ split_step tgt d = (tgt, []))) /\
  (~ In d r -> split_step (r ++ d :: rest) d = (r, rest)).
Proof.
  split; [|split].
  - destruct (split_cases tgt d) as [Habs|(r' & rest' & -> & Hr)].
    + now rewrite split_step_absent.
    + now rewrite split_step_first.
  - destruct (split_cases tgt d) as [Habs|(r' & rest' & -> & Hr)].
    + right. split; [exact Habs|now apply split_step_absent].
    + left. now rewrite split_step_first.
  - apply split_step_first.
Qed.

Lemma split_step_spec_witness :
  split_step (sv "a,b" ++ "/"%char :: sv "c/d") "/"%char
  = (sv "a,b", sv "c/d").
Proof.
  refine (proj2 (proj2 (split_step_spec [] (sv "a,b") (sv "c/d") "/"%char)) _).
  vm_compute. intros H.
  repeat (destruct H as [H|H]; [discriminate|]). exact H.
Defined.

Lemma sv_eqb_eq (a b : string_view) : sv_eqb a b = true <-> a = b.
Proof.
  revert b. induction a as [|x a IH]; destruct b as [|y b]; simpl;
    try (split; [discriminate|discriminate]); [tauto|].
  rewrite andb_true_iff, IH. split.
  - intros [E ->]. apply Ascii.eqb_eq in E. now subst.
  - intros E. injection E as -> ->. split; [apply Ascii.eqb_refl|reflexivity].
Qed.

Lemma sv_eqb_nil (a : string_view) : sv_eqb a [] = true <-> a = [].
Proof. apply sv_eqb_eq. Qed.

(** [remove_prefix] strips the prefix when the view starts with it and
    reports so; otherwise it reports failure and leaves the view as it
    is. *)
Theorem remove_prefix_spec (tgt prefix rest : string_view) :
  remove_prefix (prefix ++ rest) prefix = (true, rest) /\
  (fst (remove_prefix tgt prefix) = true ->
   tgt = prefix ++ snd (remove_prefix tgt prefix)) /\
  (fst (remove_prefix tgt prefix) = false ->
   snd (remove_prefix tgt prefix) = tgt /\
   forall tail, tgt <> prefix ++ tail).
Proof.
  assert (Hyes : forall tl, remove_prefix (prefix ++ tl) prefix = (true, tl)).
  { intros tl. unfold remove_prefix.
    assert (Hl : (length prefix <=? length (prefix ++ tl))%nat = true).
    { apply Nat.leb_le. rewrite length_app. lia. }
    rewrite Hl, firstn_app, Nat.sub_diag, firstn_all. simpl firstn.
    rewrite app_nil_r, (proj2 (sv_eqb_eq prefix prefix) eq_refl).
    cbn [andb]. f_equal.
    rewrite skipn_app, Nat.sub_diag, skipn_all. reflexivity. }
  split; [apply Hyes|].
  unfold remove_prefix.
  destruct ((length prefix <=? length tgt)%nat
            && sv_eqb (firstn (length prefix) tgt) prefix) eqn:E; cbn [fst snd].
  - split; [intros _|discriminate].
    apply andb_true_iff in E as [_ E]. apply sv_eqb_eq in E.
    rewrite <- E at 1. symmetry. apply firstn_skipn.
  - split; [discriminate|intros _]. split; [reflexivity|].
    intros tail ->.
    pose proof (Hyes tail) as H. unfold remove_prefix in H.
    rewrite E in H. discriminate.
Qed.

Lemma remove_prefix_spec_witness :
  sv "/a/b" = sv "/" ++ snd (remove_prefix (sv "/a/b") (sv "/")).
Proof.
  refine (proj1 (proj2 (remove_prefix_spec (sv "/a/b") (sv "/") [])) _).
  reflexivity.
Defined.

(** ** [try_to<uint32_t>] *)

Lemma leading_digits_run (ds junk : string_view) :
  Forall (fun c => is_digit c = true) ds ->
  match junk with [] => True | c :: _ => is_digit c = false end ->
  leading_digits (ds ++ junk) = ds.
Proof.
  intros Hds Hj. induction Hds as [|c ds Hc _ IH]; simpl.
  - destruct junk as [|c junk]; [reflexivity|]. simpl. now rewrite Hj.
  - now rewrite Hc, IH.
Qed.

Lemma digit_value_range (c : ascii) :
  is_digit c = true -> 0 <= digit_value c <= 9.
Proof.
  unfold is_digit, digit_value. intros H.
  apply andb_true_iff in H as [H1 H2].
  apply Nat.leb_le in H1. apply Nat.leb_le in H2. lia.
Qed.

Lemma decimal_value_nonneg_from (ds : string_view) (acc : Z) :
  Forall (fun c => is_digit c = true) ds -> 0 <= acc ->
  0 <= fold_left (fun a c => 10 * a + digit_value c) ds acc.
Proof.
  intros Hds. revert acc. induction Hds as [|c ds Hc _ IH]; intros acc Ha;
    cbn [fold_left]; [exact Ha|].
  apply IH. pose proof (digit_value_range c Hc). lia.
Qed.

Lemma leading_digits_are_digits (s : string_view) :
  Forall (fun c => is_digit c = true) (leading_digits s).
Proof.
  induction s as [|c s IH]; simpl; [constructor|].
  destruct (is_digit c) eqn:E; [now constructor|constructor].
Qed.

(** [try_to<uint32_t>] accepts a segment exactly when it starts with a
    decimal digit and the value of its leading run of digits fits a
    [uint32_t]; the result is that value, and whatever follows the digits
    is ignored.  A segment that is empty or starts with another character
    (a sign, a letter) is refused, and so is a run of digits whose value
    exceeds [2^32 - 1]. *)
Theorem try_to_uint32_spec (ds junk : string_view) :
  Forall (fun c => is_digit c = true) ds ->
  match junk with [] => True | c :: _ => is_digit c = false end ->
  (ds <> [] -> decimal_value ds <= UINT32_MAX ->
   try_to_uint32 (ds ++ junk) = Some (decimal_value ds)) /\
  (ds <> [] -> UINT32_MAX < decimal_value ds ->
   try_to_uint32 (ds ++ junk) = None) /\
  try_to_uint32 junk = None /\
  (forall v, try_to_uint32 (ds ++ junk) = Some v -> 0 <= v <= UINT32_MAX).
Proof.
  intros Hds Hj.
  assert (Hl : leading_digits (ds ++ junk) = ds)
    by now apply leading_digits_run.
  assert (Hj0 : leading_digits junk = []).
  { destruct junk as [|c junk]; [reflexivity|]. simpl. now rewrite Hj. }
  unfold try_to_uint32, from_chars_uint32. rewrite Hl, Hj0.
  repeat split.
  - intros Hne Hle. destruct ds as [|d ds]; [congruence|].
    apply Z.leb_le in Hle. now rewrite Hle.
  - intros Hne Hgt. destruct ds as [|d ds]; [congruence|].
    apply Z.leb_gt in Hgt. now rewrite Hgt.
  - destruct ds as [|d ds]; [discriminate|].
    destruct (Z.leb_spec (decimal_value (d :: ds)) UINT32_MAX);
      [|discriminate].
    injection H as <-. unfold decimal_value.
    now apply decimal_value_nonneg_from.
  - destruct ds as [|d ds]; [discriminate|].
    destruct (Z.leb_spec (decimal_value (d :: ds)) UINT32_MAX);
      [|discriminate].
    now injection H as <-.
Qed.

Lemma try_to_uint32_spec_witness :
  try_to_uint32 (sv "44" ++ sv "x ") = Some (decimal_value (sv "44")).
Proof.
  refine (proj1 (try_to_uint32_spec (sv "44") (sv "x ") _ _) _ _).
  - repeat constructor.
  - reflexivity.
  - discriminate.
  - vm_compute. discriminate.
Defined.

(** ** A failed parse stays failed *)

Lemma parse_segment_failed {T : Type} (ctx : ParseContext T) (fld : Field T)
      (segment : string_view) :
  ok (fst ctx) = false ->
  ok (fst (parse_segment ctx fld segment)) = false /\
  snd (parse_segment ctx fld segment) = snd ctx /\
  path (fst (parse_segment ctx fld segment)) = path (fst ctx).
Proof.
  intros H. destruct ctx as [p t]. simpl in H.
  destruct fld as [f|f]; simpl;
    unfold parse_segment_int, parse_segment_str; simpl; rewrite H; simpl.
  - destruct (int_required f); simpl; auto.
  - destruct (str_required f); simpl; auto.
Qed.

Lemma op_div_any_failed {T : Type} (ctx : ParseContext T) (o : Operand T) :
  ok (fst ctx) = false ->
  ok (fst (op_div_any ctx o)) = false /\ snd (op_div_any ctx o) = snd ctx.
Proof.
  intros H. destruct o as [f|[f1 f2]]; simpl.
  - unfold op_div.
    destruct (split_step (path (fst ctx)) "/"%char) as [seg rest].
    destruct (parse_segment_failed
                (mkPathParse rest (ok (fst ctx)), snd ctx) f seg H)
      as (H1 & H2 & _).
    now split.
  - unfold op_div_pair.
    destruct (split_step (path (fst ctx)) "/"%char) as [s rest].
    destruct (split_step s ","%char) as [s1 s2]. cbn [fst snd].
    destruct (parse_segment_failed
                (mkPathParse rest (ok (fst ctx)), snd ctx) f1 s1 H)
      as (H1 & H2 & _).
    destruct (parse_segment_failed _ f2 s2 H1) as (H3 & H4 & _).
    split; [exact H3|]. now rewrite H4, H2.
Qed.

(** Once [ok] is false, no operand of a chain [ctx / a / b / ...] sets it
    again or touches the target object: the fields after the first failure
    keep the values they had. *)
Theorem failed_parse_is_sticky {T : Type} (ctx : ParseContext T)
        (os : list (Operand T)) :
  ok (fst ctx) = false ->
  ok (fst (chain ctx os)) = false /\ snd (chain ctx os) = snd ctx.
Proof.
  revert ctx. induction os as [|o os IH]; intros ctx H; [now split|].
  simpl. destruct (op_div_any_failed ctx o H) as [H1 H2].
  destruct (IH _ H1) as [H3 H4]. split; [exact H3|congruence].
Qed.

Lemma failed_parse_is_sticky_witness :
  snd (chain (start_parse (mkPathParse (sv "Piglet/x/7") true) Person_default
                (sv "/"))
         [One (FStr (mkStringField mutable_first_name true));
          Two (FStr (optional_str mutable_last_name),
               FInt (optional_int set_age))])
  = Person_default.
Proof.
  refine (proj2 (failed_parse_is_sticky
                   (start_parse (mkPathParse (sv "Piglet/x/7") true)
                      Person_default (sv "/"))
                   [One (FStr (mkStringField mutable_first_name true));
                    Two (FStr (optional_str mutable_last_name),
                         FInt (optional_int set_age))] _)).
  reflexivity.
Defined.

(** ** [parse_person] *)

Lemma split_step_decompose (s : string_view) (d : ascii) :
  exists r rest,
    split_step s d = (r, rest) /\ ~ In d r /\
    (s = r ++ d :: rest \/ (s = r /\ rest = [])).
Proof.
  destruct (split_cases s d) as [Habs|(r & rest & -> & Hr)].
  - exists s, []. rewrite split_step_absent by exact Habs. auto.
  - exists r, rest. rewrite split_step_first by exact Hr. auto.
Qed.

Lemma parse_person_as_chain (p : Person) (src : string_view) :
  parse_person p src
  = (ok (fst (chain (start_parse (mkPathParse src true) p (sv "/"))
                person_grammar)),
     snd (chain (start_parse (mkPathParse src true) p (sv "/"))
            person_grammar)).
Proof. reflexivity. Qed.

Lemma sv_eqb_nil_false (s : string_view) : s <> [] -> sv_eqb s [] = false.
Proof. destruct s; [congruence|reflexivity]. Qed.

(** What [parse_person] computes, segment by segment. *)
Lemma parse_person_equation (p : Person) (src : string_view) :
  parse_person p src
  = match remove_prefix src (sv "/") with
    | (false, _) => (false, p)
    | (true, x) =>
        let (f, r) := split_step x "/"%char in
        if sv_eqb f [] then (false, p) else
        let (l, r2) := split_step r "/"%char in
        if sv_eqb l [] then (false, mkPerson f (last_name_ p) (age_ p)) else
        let (a, _) := split_step r2 "/"%char in
        if sv_eqb a [] then (true, mkPerson f l (age_ p)) else
        match try_to_uint32 a with
        | Some v => (true, mkPerson f l v)
        | None => (false, mkPerson f l (age_ p))
        end
    end.
Proof.
  unfold parse_person, start_parse, parse_into, op_div_getter, op_div,
    parse_segment, parse_segment_str, parse_segment_int, optional_int, set_ok.
  cbn [path].
  destruct (remove_prefix src (sv "/")) as [b x].
  cbn [fst snd path ok getter str_required setter int_required].
  destruct (split_step x "/"%char) as [f r].
  destruct b; cbn [andb];
    destruct (sv_eqb f []);
    cbn [negb fst snd path ok getter str_required setter int_required andb];
    destruct (split_step r "/"%char) as [l r2];
    cbn [negb fst snd path ok getter str_required setter int_required andb];
    destruct (sv_eqb l []);
    cbn [negb fst snd path ok getter str_required setter int_required andb];
    destruct (split_step r2 "/"%char) as [a r3];
    cbn [negb fst snd path ok getter str_required setter int_required andb];
    destruct (sv_eqb a []);
    cbn [negb fst snd path ok getter str_required setter int_required andb];
    try reflexivity;
    destruct (try_to_uint32 a); reflexivity.
Qed.

Lemma remove_prefix_app_inv (src x : string_view) :
  remove_prefix src (sv "/") = (true, x) -> src = "/"%char :: x.
Proof.
  destruct src as [|c s]; [discriminate|].
  unfold remove_prefix. cbn.
  destruct (Ascii.eqb_spec c "/"%char) as [->|_]; [|discriminate].
  intros H. now injection H as <-.
Qed.

Lemma remove_slash (x : string_view) :
  remove_prefix ("/"%char :: x) (sv "/") = (true, x).
Proof. reflexivity. Qed.

Lemma remove_slash_absent (src : string_view) :
  (forall x, src <> "/"%char :: x) ->
  remove_prefix src (sv "/") = (false, src).
Proof.
  intros H. destruct src as [|c x]; [reflexivity|].
  unfold remove_prefix. cbn.
  destruct (Ascii.eqb_spec c "/"%char) as [->|_]; [|reflexivity].
  exfalso. now apply (H x).
Qed.

Lemma split_segment (seg more : string_view) :
  ~ In "/"%char seg ->
  (more = [] \/ exists m, more = "/"%char :: m) ->
  split_step (seg ++ more) "/"%char = (seg, tl more).
Proof.
  intros Hs [->|[m ->]].
  - rewrite app_nil_r. now apply split_step_absent.
  - now apply split_step_first.
Qed.

(** [parse_person] on a path of the documented form.  With [f] and [l]
    non-empty and free of ['/']: ["/f/l"] is accepted and sets the two names,
    leaving the age as it was.  With a third segment [a], whatever follows
    it after a further ['/'] being ignored: an empty [a] is accepted and
    leaves the age; an [a] that [try_to<uint32_t>] converts is accepted and
    sets the age; any other [a] makes the call return false, with both
    names already overwritten. *)
Theorem parse_person_on_path (p : Person) (f l a more : string_view) :
  f <> [] -> l <> [] ->
  ~ In "/"%char f -> ~ In "/"%char l -> ~ In "/"%char a ->
  (more = [] \/ exists m, more = "/"%char :: m) ->
  parse_person p ("/"%char :: f ++ "/"%char :: l)
  = (true, mkPerson f l (age_ p)) /\
  parse_person p ("/"%char :: f ++ "/"%char :: l ++ "/"%char :: a ++ more)
  = match a with
    | [] => (true, mkPerson f l (age_ p))
    | _ => match try_to_uint32 a with
           | Some v => (true, mkPerson f l v)
           | None => (false, mkPerson f l (age_ p))
           end
    end.
Proof.
  intros Hf Hl Hfs Hls Has Hmore. split.
  - rewrite parse_person_equation, remove_slash.
    rewrite (split_step_first f l "/"%char Hfs), (sv_eqb_nil_false f Hf).
    rewrite (split_step_absent l "/"%char Hls), (sv_eqb_nil_false l Hl).
    reflexivity.
  - rewrite parse_person_equation, remove_slash.
    rewrite (split_step_first f _ "/"%char Hfs), (sv_eqb_nil_false f Hf).
    rewrite (split_step_first l _ "/"%char Hls), (sv_eqb_nil_false l Hl).
    rewrite (split_segment a more Has Hmore).
    destruct a as [|c a]; reflexivity.
Qed.

Lemma parse_person_on_path_witness :
  parse_person Person_default
    ("/"%char :: sv "Tigger" ++ "/"%char :: sv "Tiger" ++ "/"%char :: sv "44x"
     ++ sv "/more/of/it")
  = match sv "44x" with
    | [] => (true, mkPerson (sv "Tigger") (sv "Tiger") (age_ Person_default))
    | _ => match try_to_uint32 (sv "44x") with
           | Some v => (true, mkPerson (sv "Tigger") (sv "Tiger") v)
           | None => (false, mkPerson (sv "Tigger") (sv "Tiger")
                               (age_ Person_default))
           end
    end.
Proof.
  refine (proj2 (parse_person_on_path Person_default (sv "Tigger")
                   (sv "Tiger") (sv "44x") (sv "/more/of/it") _ _ _ _ _ _)).
  - discriminate.
  - discriminate.
  - vm_compute. intros H. repeat (destruct H as [H|H]; [discriminate|]).
    exact H.
  - vm_compute. intros H. repeat (destruct H as [H|H]; [discriminate|]).
    exact H.
  - vm_compute. intros H. repeat (destruct H as [H|H]; [discriminate|]).
    exact H.
  - right. eexists. reflexivity.
Defined.

(** A call of [parse_person] that returns false never touches the age, and
    leaves the person in one of three states: untouched (no leading ['/'],
    or an empty first segment), with the first name overwritten (empty
    second segment), or with both names overwritten (third segment not a
    number).  In particular a path without the leading ['/'] changes
    nothing. *)
Theorem parse_person_failure (p : Person) (src : string_view) :
  fst (parse_person p src) = false ->
  age_ (snd (parse_person p src)) = age_ p /\
  (snd (parse_person p src) = p \/
   (exists f, f <> [] /\
      snd (parse_person p src) = mkPerson f (last_name_ p) (age_ p)) \/
   (exists f l, f <> [] /\ l <> [] /\
      snd (parse_person p src) = mkPerson f l (age_ p))) /\
  ((forall x, src <> "/"%char :: x) -> parse_person p src = (false, p)).
Proof.
  intros Hfail.
  split; [|split].
  - rewrite parse_person_equation in *.
    destruct (remove_prefix src (sv "/")) as [[|] x]; [|reflexivity].
    destruct (split_step x "/"%char) as [f r].
    destruct (sv_eqb f []); [reflexivity|].
    destruct (split_step r "/"%char) as [l r2].
    destruct (sv_eqb l []); [reflexivity|].
    destruct (split_step r2 "/"%char) as [a r3].
    destruct (sv_eqb a []); [discriminate|].
    destruct (try_to_uint32 a); [discriminate|reflexivity].
  - rewrite parse_person_equation in *.
    destruct (remove_prefix src (sv "/")) as [[|] x]; [|now left].
    destruct (split_step x "/"%char) as [f r].
    destruct (sv_eqb f []) eqn:Ef; [now left|].
    assert (Hf : f <> []) by (intros ->; discriminate).
    destruct (split_step r "/"%char) as [l r2].
    destruct (sv_eqb l []) eqn:El.
    + right. left. exists f. split; [exact Hf|reflexivity].
    + assert (Hl : l <> []) by (intros ->; discriminate).
      destruct (split_step r2 "/"%char) as [a r3].
      destruct (sv_eqb a []); [discriminate|].
      destruct (try_to_uint32 a); [discriminate|].
      right. right. exists f, l. repeat split; assumption.
  - intros Hno. rewrite parse_person_equation.
    now rewrite (remove_slash_absent src Hno).
Qed.

Lemma parse_person_failure_witness :
  age_ (snd (parse_person Person_default (sv "/Winnie/the/Poo")))
  = age_ Person_default.
Proof.
  refine (proj1 (parse_person_failure Person_default (sv "/Winnie/the/Poo") _)).
  reflexivity.
Defined.

Lemma try_to_uint32_range (a : string_view) (v : Z) :
  try_to_uint32 a = Some v -> 0 <= v <= UINT32_MAX.
Proof.
  unfold try_to_uint32, from_chars_uint32.
  pose proof (leading_digits_are_digits a) as Hd.
  destruct (leading_digits a) as [|d ds]; [discriminate|].
  destruct (Z.leb_spec (decimal_value (d :: ds)) UINT32_MAX) as [Hle|Hgt];
    [|discriminate].
  intros E. injection E as <-. split; [|exact Hle].
  unfold decimal_value. now apply decimal_value_nonneg_from.
Qed.

(** A call of [parse_person] that returns true has read the person off the
    path: the path is ["/"], the first name, ["/"], the last name and then
    either nothing or a further ["/"]-led remainder; both names are
    non-empty and free of ['/']; and the age is either the one the person had
    or a value that fits a [uint32_t]. *)
Theorem parse_person_success (p : Person) (src : string_view) :
  fst (parse_person p src) = true ->
  (exists more,
      src = "/"%char :: first_name_ (snd (parse_person p src))
            ++ "/"%char :: last_name_ (snd (parse_person p src)) ++ more /\
      (more = [] \/ exists m, more = "/"%char :: m)) /\
  first_name_ (snd (parse_person p src)) <> [] /\
  last_name_ (snd (parse_person p src)) <> [] /\
  ~ In "/"%char (first_name_ (snd (parse_person p src))) /\
  ~ In "/"%char (last_name_ (snd (parse_person p src))) /\
  (age_ (snd (parse_person p src)) = age_ p \/
   0 <= age_ (snd (parse_person p src)) <= UINT32_MAX).
Proof.
  rewrite parse_person_equation.
  pose proof (remove_prefix_app_inv src) as Hpre.
  destruct (remove_prefix src (sv "/")) as [[|] x]; [|discriminate].
  specialize (Hpre x eq_refl). subst src.
  destruct (split_step_decompose x "/"%char) as (f & r & -> & Hfs & Hx).
  destruct (sv_eqb f []) eqn:Ef; [discriminate|].
  assert (Hf : f <> []) by (intros ->; discriminate).
  destruct (split_step_decompose r "/"%char) as (l & r2 & -> & Hls & Hr).
  destruct (sv_eqb l []) eqn:El; [discriminate|].
  assert (Hl : l <> []) by (intros ->; discriminate).
  assert (Hxr : x = f ++ "/"%char :: r).
  { destruct Hx as [E|[_ E]]; [exact E|].
    subst r. exfalso.
    destruct Hr as [E|[E _]]; [now destruct l|congruence]. }
  assert (Hshape : exists more,
             x = f ++ "/"%char :: l ++ more /\
             (more = [] \/ exists m, more = "/"%char :: m)).
  { destruct Hr as [E|[E _]].
    - exists ("/"%char :: r2). split; [now rewrite Hxr, E|].
      right. now exists r2.
    - exists []. split; [now rewrite Hxr, E, app_nil_r|now left]. }
  destruct (split_step r2 "/"%char) as [a r3].
  destruct (sv_eqb a []).
  - intros _. cbn [snd first_name_ last_name_ age_].
    destruct Hshape as (more & Hm & Hmore).
    repeat split; try assumption.
    + exists more. split; [now rewrite Hm|exact Hmore].
    + now left.
  - destruct (try_to_uint32 a) as [v|] eqn:Ea; [|discriminate].
    intros _. cbn [snd first_name_ last_name_ age_].
    destruct Hshape as (more & Hm & Hmore).
    repeat split; try assumption.
    + exists more. split; [now rewrite Hm|exact Hmore].
    + right. now apply try_to_uint32_range in Ea.
Qed.

Lemma parse_person_success_witness :
  first_name_ (snd (parse_person Person_default (sv "/Tyler/Robin"))) <> [].
Proof.
  refine (proj1 (proj2 (parse_person_success Person_default
                          (sv "/Tyler/Robin") _))).
  reflexivity.
Defined.

(** The five calls of the runner behave as its comments say: the first two
    succeed with all three fields set, the third succeeds and keeps the
    default age 2, the fourth fails for want of a last name, and the fifth
    fails because ["Poo"] is not a number. *)
Theorem run_parse_runner_calls :
  run_parse (sv "/Christopher/Robin/5")
  = (true, mkPerson (sv "Christopher") (sv "Robin") 5) /\
  run_parse (sv "/Tigger/Tiger/44")
  = (true, mkPerson (sv "Tigger") (sv "Tiger") 44) /\
  run_parse (sv "/Tyler/Robin")
  = (true, mkPerson (sv "Tyler") (sv "Robin") 2) /\
  run_parse (sv "/Piglet") = (false, mkPerson (sv "Piglet") [] 2) /\
  run_parse (sv "/Winnie/the/Poo")
  = (false, mkPerson (sv "Winnie") (sv "the") 2).
Proof. repeat split; vm_compute; reflexivity. Qed.

(** ** The pair operand *)

(** [ctx / std::pair(f1, f2)] takes the next ['/']-delimited segment off the
    path and cuts it at its first [',']: the text before the comma goes to
    the first field and everything after it to the second; without a comma
    the first field gets the whole segment and the second an empty one. *)
Theorem op_div_pair_splits {T : Type} (t : T) (f1 f2 : Field T)
        (a b rest : string_view) (st : bool) :
  ~ In "/"%char a -> ~ In ","%char a -> ~ In "/"%char b ->
  op_div_pair (mkPathParse (a ++ ","%char :: b ++ "/"%char :: rest) st, t)
    (f1, f2)
  = parse_segment (parse_segment (mkPathParse rest st, t) f1 a) f2 b /\
  op_div_pair (mkPathParse (a ++ "/"%char :: rest) st, t) (f1, f2)
  = parse_segment (parse_segment (mkPathParse rest st, t) f1 a) f2 [].
Proof.
  intros Ha Hc Hb. split; unfold op_div_pair; cbn [fst snd path ok].
  - replace (a ++ ","%char :: b ++ "/"%char :: rest)
      with ((a ++ ","%char :: b) ++ "/"%char :: rest)
      by (rewrite <- app_assoc; reflexivity).
    rewrite split_step_first.
    + now rewrite (split_step_first a b ","%char Hc).
    + intros Hin. apply in_app_or in Hin as [Hin|[E|Hin]];
        [tauto|discriminate|tauto].
  - rewrite (split_step_first a rest "/"%char Ha).
    now rewrite (split_step_absent a ","%char Hc).
Qed.

Lemma op_div_pair_splits_witness :
  op_div_pair
    (mkPathParse (sv "Robin" ++ ","%char :: sv "5" ++ "/"%char :: sv "x") true,
     Person_default)
    (FStr (mkStringField mutable_last_name true), FInt (optional_int set_age))
  = parse_segment
      (parse_segment (mkPathParse (sv "x") true, Person_default)
         (FStr (mkStringField mutable_last_name true)) (sv "Robin"))
      (FInt (optional_int set_age)) (sv "5").
Proof.
  refine (proj1 (op_div_pair_splits Person_default
                   (FStr (mkStringField mutable_last_name true))
                   (FInt (optional_int set_age))
                   (sv "Robin") (sv "5") (sv "x") true _ _ _));
    vm_compute; intros H;
    repeat (destruct H as [H|H]; [discriminate|]); exact H.
Defined.
